(** * alien: a per-method character trie router

    A shallow embedding of [alien.go]: the trie node with [branch],
    [findChild], [insert] and [find]; [Route] and its [ServeHTTP];
    [ParseParameter]; [Parameter.Load], [Parameter.Get], [GetParameter];
    and the [Router] with [addRoute] and [find].

    Go strings are byte strings: they are [string] here (a list of
    [ascii] bytes).  A [range] loop over a string decodes UTF-8 and
    yields (byte index, rune) pairs; [range] below does the same.
    The trie is a tree that exclusively owns its children, so the
    pointer walk of [insert] becomes a recursive rebuild of the spine
    that the walk visits. *)

From Stdlib Require Import ZArith String Ascii List Bool Lia.
From stdpp Require Import gmap strings list fin_maps.
Import ListNotations.

Local Open Scope Z_scope.

(** ** Runes and the [range] clause over a string *)

Definition rune := Z.

Definition byte_of (a : ascii) : Z := Z.of_N (N_of_ascii a).

(** A rune literal such as ['/'] is written [rc "/"]. *)
Definition rc (a : ascii) : rune := byte_of a.

Definition RuneError : rune := 0xFFFD.

Definition continuation (b : Z) : bool := (0x80 <=? b) && (b <=? 0xBF).

(** The first code point of a non-empty string and its width in bytes;
    an invalid or truncated sequence gives [RuneError] with width 1. *)
Definition decodeRune (s : string) : rune * nat :=
  match s with
  | EmptyString => (RuneError, 0%nat)
  | String a0 t =>
    let b0 := byte_of a0 in
    if b0 <? 0x80 then (b0, 1%nat)
    else if (0xC2 <=? b0) && (b0 <=? 0xDF) then
      match t with
      | String a1 _ =>
        let b1 := byte_of a1 in
        if continuation b1
        then (Z.lor (Z.shiftl (Z.land b0 0x1F) 6) (Z.land b1 0x3F), 2%nat)
        else (RuneError, 1%nat)
      | _ => (RuneError, 1%nat)
      end
    else if (0xE0 <=? b0) && (b0 <=? 0xEF) then
      match t with
      | String a1 (String a2 _) =>
        let b1 := byte_of a1 in
        let b2 := byte_of a2 in
        let lo := if b0 =? 0xE0 then 0xA0 else 0x80 in
        let hi := if b0 =? 0xED then 0x9F else 0xBF in
        if (lo <=? b1) && (b1 <=? hi) && continuation b2
        then (Z.lor (Z.shiftl (Z.land b0 0x0F) 12)
                (Z.lor (Z.shiftl (Z.land b1 0x3F) 6) (Z.land b2 0x3F)), 3%nat)
        else (RuneError, 1%nat)
      | _ => (RuneError, 1%nat)
      end
    else if (0xF0 <=? b0) && (b0 <=? 0xF4) then
      match t with
      | String a1 (String a2 (String a3 _)) =>
        let b1 := byte_of a1 in
        let b2 := byte_of a2 in
        let b3 := byte_of a3 in
        let lo := if b0 =? 0xF0 then 0x90 else 0x80 in
        let hi := if b0 =? 0xF4 then 0x8F else 0xBF in
        if (lo <=? b1) && (b1 <=? hi) && continuation b2 && continuation b3
        then (Z.lor (Z.shiftl (Z.land b0 0x07) 18)
                (Z.lor (Z.shiftl (Z.land b1 0x3F) 12)
                   (Z.lor (Z.shiftl (Z.land b2 0x3F) 6) (Z.land b3 0x3F))), 4%nat)
        else (RuneError, 1%nat)
      | _ => (RuneError, 1%nat)
      end
    else (RuneError, 1%nat)
  end.

(** [range_from skip index s]: the iterations of [for index, r := range]
    over the bytes [s] that start at byte offset [index]; [skip] bytes
    still belong to the code point decoded last. *)
Fixpoint range_from (skip index : nat) (s : string) : list (nat * rune) :=
  match s with
  | EmptyString => []
  | String _ t =>
    match skip with
    | S k => range_from k (S index) t
    | O => let '(r, w) := decodeRune s in
           (index, r) :: range_from (w - 1) (S index) t
    end
  end.

Definition range (s : string) : list (nat * rune) := range_from 0 0 s.

(** ** Handlers, routes *)

Record Request := mkRequest {
  Method : string;
  URLPath : string;
  Header : gmap string string
}.

(** What has been written to the response so far. *)
Definition ResponseWriter := list string.

Definition Handler := ResponseWriter -> Request -> ResponseWriter.
Definition RouteHandler := ResponseWriter -> Request -> ResponseWriter.
Definition Middleware := Handler -> Handler.

Record Route := mkRoute {
  path : string;
  handler : RouteHandler;
  middleware : list Middleware
}.

Inductive error :=
| errRouteNotFound
| errBadPattern
| errUnknownMethod
| errInsertOnNonRoot      (* "insert on non root node" *)
| errEmptyPattern         (* "empty pattern is not support" *)
| errMustStartWithSlash   (* "path must start with '/'" *)
| errNonNodeSearch.       (* "non Node search" *)

(** ** Trie nodes *)

#[local] Set Warnings "-register-all".

Definition eof : rune := 0.

Inductive Classify := NodeRoot | nodeParam | nodeNormal | nodeCatchAll | nodeEnd.

Definition Classify_eqb (a b : Classify) : bool :=
  match a, b with
  | NodeRoot, NodeRoot | nodeParam, nodeParam | nodeNormal, nodeNormal
  | nodeCatchAll, nodeCatchAll | nodeEnd, nodeEnd => true
  | _, _ => false
  end.

(** [value] is a [*Route]: [None] is the nil pointer. *)
Inductive Node := mkNode {
  key : rune;
  value : option Route;
  classify : Classify;
  children : list Node
}.

(** The node that [branch] allocates; the variadic [classify] argument
    defaults to the zero value, [NodeRoot]. *)
Definition newNode (k : rune) (v : option Route) (cl : list Classify) : Node :=
  mkNode k v (match cl with c :: _ => c | [] => NodeRoot end) [].

(** [node.children = append(node.children, data)] *)
Definition attach (node data : Node) : Node :=
  mkNode (key node) (value node) (classify node) (children node ++ [data]).

(** The receiver after [node.branch(key, value, classify...)]. *)
Definition branch (node : Node) (k : rune) (v : option Route) (cl : list Classify) : Node :=
  attach node (newNode k v cl).

Fixpoint firstWithKey (k : rune) (l : list Node) : option Node :=
  match l with
  | [] => None
  | c :: rest => if key c =? k then Some c else firstWithKey k rest
  end.

Definition findChild (node : Node) (k : rune) : option Node :=
  firstWithKey k (children node).

(** The child that [findChild] returned is a pointer into the parent:
    what the walk then does below it shows in the parent.  [setChild]
    puts the rebuilt child back in the place [findChild] found it. *)
Fixpoint replaceFirst (k : rune) (data : Node) (l : list Node) : list Node :=
  match l with
  | [] => []
  | c :: rest => if key c =? k then data :: rest else c :: replaceFirst k data rest
  end.

Definition setChild (node : Node) (k : rune) (data : Node) : Node :=
  mkNode (key node) (value node) (classify node) (replaceFirst k data (children node)).

(** ** insert *)

Definition branchKind (character : rune) : Classify :=
  if character =? rc ":" then nodeParam
  else if character =? rc "*" then nodeCatchAll
  else nodeNormal.

(** The loop of [insert] from cursor [level] on, followed by the final
    [level.branch(eof, value, nodeEnd)]; the result is [level] as the
    walk leaves it.  [len] is [len(pattern)]. *)
Fixpoint insert_walk (len : nat) (v : Route) (chars : list (nat * rune)) (level : Node) : Node :=
  match chars with
  | [] => branch level eof (Some v) [nodeEnd]
  | (index, character) :: rest =>
    if Classify_eqb (classify level) nodeParam
       && (index <? len)%nat && negb (character =? rc "/")
    then insert_walk len v rest level
    else
      match findChild level character with
      | Some child => setChild level character (insert_walk len v rest child)
      | None =>
        attach level
          (insert_walk len v rest (newNode character None [branchKind character]))
      end
  end.

(** [pattern[0] != 47] *)
Definition firstByteIsSlash (pattern : string) : bool :=
  match pattern with
  | String a _ => byte_of a =? 47
  | EmptyString => false
  end.

(** [node.insert(pattern, value)]: the receiver afterwards and the error.
    The range loop sets [level = node] at index 0, its first iteration. *)
Definition insert (node : Node) (pattern : string) (v : Route) : Node * option error :=
  if negb (Classify_eqb (classify node) NodeRoot) then (node, Some errInsertOnNonRoot)
  else if String.eqb pattern "" then (node, Some errEmptyPattern)
  else if negb (firstByteIsSlash pattern) then (node, Some errMustStartWithSlash)
  else (insert_walk (String.length pattern) v (range pattern) node, None).

(** ** find *)

Inductive Step :=
| Stay                                  (* mid-parameter: [continue] on the same node *)
| Descend (n : Node) (isParam : bool)   (* [level = n; continue] *)
| Break (n : Node)                      (* [level = catchAll; break] *)
| Miss.                                 (* [return nil, errRouteNotFound] *)

(** One iteration of the loop of [find]. *)
Definition find_step (len : nat) (level : Node) (isParam : bool)
    (k : nat) (ch : rune) : Step :=
  let c := findChild level ch in
  if isParam && (k <? len)%nat && negb (ch =? rc "/") then Stay
  else
    match findChild level (rc ":") with
    | Some param => Descend param true
    | None =>
      match findChild level (rc "*") with
      | Some catchAll => Break catchAll
      | None =>
        match c with
        | Some c => Descend c false
        | None => Miss
        end
      end
    end.

(** The loop of [find]: the node it ends on, or [None] when it returned
    [errRouteNotFound] from inside the loop. *)
Fixpoint find_walk (len : nat) (chars : list (nat * rune)) (level : Node)
    (isParam : bool) : option Node :=
  match chars with
  | [] => Some level
  | (k, ch) :: rest =>
    match find_step len level isParam k ch with
    | Stay => find_walk len rest level true
    | Descend n p => find_walk len rest n p
    | Break n => Some n
    | Miss => None
    end
  end.

Inductive result :=
| Ok (r : option Route)
| Err (e : error).

(** The code after the loop, for a non-nil [level]. *)
Definition resolve (level : Node) : result :=
  match findChild level eof with
  | Some e => Ok (value e)
  | None =>
    match findChild level (rc "/") with
    | Some slash =>
      match findChild slash eof with
      | Some e => Ok (value e)
      | None => Err errRouteNotFound
      end
    | None => Err errRouteNotFound
    end
  end.

(** The variable [level] when the loop is over: it is nil ([Some None])
    unless the loop ran, since [level = node] happens at index 0, the
    first iteration; [None] when the loop returned [errRouteNotFound]. *)
Definition scan (node : Node) (p : string) : option (option Node) :=
  match range p with
  | [] => Some None
  | chars =>
    match find_walk (String.length p) chars node false with
    | Some level => Some (Some level)
    | None => None
    end
  end.

(** [node.find(path)] *)
Definition find (node : Node) (p : string) : result :=
  if negb (Classify_eqb (classify node) NodeRoot) then Err errNonNodeSearch
  else
    match scan node p with
    | None => Err errRouteNotFound
    | Some (Some level) => resolve level
    | Some None => Err errRouteNotFound
    end.

(** ** Route invocation *)

(** [route.ServeHTTP(response, request)]: the loop rebinds [base] once
    per middleware, in slice order, and the final [base] serves. *)
Definition wrapped (route : Route) : Handler :=
  fold_left (fun (base : Handler) (mw : Middleware) => mw base)
    (middleware route) (handler route).

Definition Route_ServeHTTP (route : Route) (response : ResponseWriter)
    (request : Request) : ResponseWriter :=
  wrapped route response request.

(** ** The strings package, at the separators the source passes *)

(** [strings.Contains(s, sep)] for a one-byte [sep]. *)
Fixpoint Contains (s : string) (sep : ascii) : bool :=
  match s with
  | EmptyString => false
  | String c t => Ascii.eqb c sep || Contains t sep
  end.

(** [strings.Split(s, sep)] for a one-byte [sep]: one more piece than
    there are separators, never an empty slice. *)
Fixpoint Split (s : string) (sep : ascii) : list string :=
  match s with
  | EmptyString => [EmptyString]
  | String c t =>
    if Ascii.eqb c sep then EmptyString :: Split t sep
    else
      match Split t sep with
      | piece :: more => String c piece :: more
      | [] => [String c EmptyString]
      end
  end.

(** [strings.Join(elems, sep)] *)
Fixpoint Join (elems : list string) (sep : string) : string :=
  match elems with
  | [] => EmptyString
  | [e] => e
  | e :: more => (e ++ sep ++ Join more sep)%string
  end.

(** ** ParseParameter *)

(** What a call does: it returns its two named results, or it panics on
    an index out of range. *)
Inductive outcome :=
| Return (result : string) (err : option error)
| Panic.

(** The [for k, v := range p2] loop from index [k] on, where [p2] is
    what is left of the pattern segments and [s2] their total number. *)
Fixpoint parse_loop (p1 : list string) (s2 k : nat) (p2 : list string)
    (result : string) : outcome :=
  match p2 with
  | [] => Return result None
  | v :: rest =>
    match v with
    | EmptyString => parse_loop p1 s2 (S k) rest result
    | String v0 v1 =>    (* v1 is v[1:] *)
      if Ascii.eqb v0 ":" then
        match p1 !! k with
        | None => Panic
        | Some seg =>
          if (String.length result =? 0)%nat
          then parse_loop p1 s2 (S k) rest (v1 ++ ":" ++ seg)%string
          else parse_loop p1 s2 (S k) rest (result ++ "," ++ v1 ++ ":" ++ seg)%string
        end
      else if Ascii.eqb v0 "*" then
        if negb (k =? s2 - 1)%nat then Return result (Some errBadPattern)
        else
          let name := if (1 <? String.length v)%nat then v1 else "catch"%string in
          if (length p1 <? k)%nat then Panic
          else if (String.length result =? 0)%nat
          then Return (name ++ ":" ++ Join (drop k p1) "/")%string None
          else Return (result ++ "," ++ name ++ ":" ++ Join (drop k p1) "/")%string None
      else parse_loop p1 s2 (S k) rest result
    end
  end.

Definition ParseParameter (matched pattern : string) : outcome :=
  if Contains pattern ":" || Contains pattern "*" then
    let p1 := Split matched "/" in
    let p2 := Split pattern "/" in
    let s1 := length p1 in
    let s2 := length p2 in
    if (s1 <? s2)%nat then Return EmptyString (Some errBadPattern)
    else parse_loop p1 s2 0 p2 EmptyString
  else Return EmptyString None.

(** ** Parameter *)

(** One iteration of the loop of [Load]. *)
Definition load_entry (parameter : gmap string string) (entry : string)
    : gmap string string :=
  match Split entry ":" with
  | [name; val] => <[name := val]> parameter
  | _ => parameter
  end.

(** [parameter.Load(source)]: the map afterwards. *)
Definition Parameter_Load (parameter : gmap string string) (source : string)
    : gmap string string :=
  fold_left load_entry (Split source ",") parameter.

(** [parameter.Get(key)]; [None] is the nil map, which reads as empty. *)
Definition Parameter_Get (parameter : option (gmap string string)) (k : string)
    : string :=
  match parameter with
  | Some m => default EmptyString (m !! k)
  | None => EmptyString
  end.

Definition headerName : string := "_alien".

(** [request.Header.Get(headerName)]: the empty string when absent.
    [Get] and [Set] canonicalise the header name in the same way, so a
    name reads back what was set under it. *)
Definition Header_Get (request : Request) (name : string) : string :=
  default EmptyString (Header request !! name).

(** [r.Header.Set(name, v)] *)
Definition Header_Set (request : Request) (name v : string) : Request :=
  mkRequest (Method request) (URLPath request) (<[name := v]> (Header request)).

Definition GetParameter (request : Request) : option (gmap string string) :=
  let v := Header_Get request headerName in
  if negb (String.eqb v "") then Some (Parameter_Load ∅ v) else None.

(** ** Router *)

Record Router := mkRouter {
  put : option Node;
  get : option Node;
  post : option Node;
  head : option Node;
  patch : option Node;
  trace : option Node;
  delete : option Node;
  connect : option Node;
  options : option Node
}.

Definition AllMethod : list string :=
  ["GET"; "PUT"; "POST"; "HEAD"; "PATCH"; "TRACE"; "DELETE"; "OPTIONS"; "CONNECT"]%string.

(** [&Node{classify: NodeRoot}] *)
Definition emptyRoot : Node := mkNode 0 None NodeRoot [].

(** [if field == nil { field = &Node{classify: NodeRoot} }] followed by
    [field.insert(path, newRoute)]: the field afterwards and the error. *)
Definition insertAt (field : option Node) (p : string) (newRoute : Route)
    : option Node * option error :=
  let '(n, e) := insert (from_option id emptyRoot field) p newRoute in
  (Some n, e).

Definition Router_addRoute (r : Router) (method p : string) (h : RouteHandler)
    (wares : list Middleware) : Router * option error :=
  let newRoute := mkRoute p h wares in
  if String.eqb method "GET" then
    let '(n, e) := insertAt (get r) p newRoute in
    (mkRouter (put r) n (post r) (head r) (patch r) (trace r) (delete r) (connect r) (options r), e)
  else if String.eqb method "POST" then
    let '(n, e) := insertAt (post r) p newRoute in
    (mkRouter (put r) (get r) n (head r) (patch r) (trace r) (delete r) (connect r) (options r), e)
  else if String.eqb method "PUT" then
    let '(n, e) := insertAt (put r) p newRoute in
    (mkRouter n (get r) (post r) (head r) (patch r) (trace r) (delete r) (connect r) (options r), e)
  else if String.eqb method "PATCH" then
    let '(n, e) := insertAt (patch r) p newRoute in
    (mkRouter (put r) (get r) (post r) (head r) n (trace r) (delete r) (connect r) (options r), e)
  else if String.eqb method "HEAD" then
    let '(n, e) := insertAt (head r) p newRoute in
    (mkRouter (put r) (get r) (post r) n (patch r) (trace r) (delete r) (connect r) (options r), e)
  else if String.eqb method "CONNECT" then
    let '(n, e) := insertAt (connect r) p newRoute in
    (mkRouter (put r) (get r) (post r) (head r) (patch r) (trace r) (delete r) n (options r), e)
  else if String.eqb method "OPTIONS" then
    let '(n, e) := insertAt (options r) p newRoute in
    (mkRouter (put r) (get r) (post r) (head r) (patch r) (trace r) (delete r) (connect r) n, e)
  else if String.eqb method "TRACE" then
    let '(n, e) := insertAt (trace r) p newRoute in
    (mkRouter (put r) (get r) (post r) (head r) (patch r) n (delete r) (connect r) (options r), e)
  else if String.eqb method "DELETE" then
    let '(n, e) := insertAt (delete r) p newRoute in
    (mkRouter (put r) (get r) (post r) (head r) (patch r) (trace r) n (connect r) (options r), e)
  else (r, Some errUnknownMethod).

Definition findIn (field : option Node) (p : string) : result :=
  match field with
  | Some n => find n p
  | None => Err errRouteNotFound
  end.

Definition Router_find (r : Router) (method p : string) : result :=
  if String.eqb method "GET" then findIn (get r) p
  else if String.eqb method "POST" then findIn (post r) p
  else if String.eqb method "PUT" then findIn (put r) p
  else if String.eqb method "PATCH" then findIn (patch r) p
  else if String.eqb method "HEAD" then findIn (head r) p
  else if String.eqb method "CONNECT" then findIn (connect r) p
  else if String.eqb method "OPTIONS" then findIn (options r) p
  else if String.eqb method "TRACE" then findIn (trace r) p
  else if String.eqb method "DELETE" then findIn (delete r) p
  else Err errRouteNotFound.

(** [&Router{}] *)
Definition newRouter : Router :=
  mkRouter None None None None None None None None None.


(** * Vocabulary of the properties *)

(** ** Sibling keys *)

(** The keys of [l] that [counted] selects are pairwise distinct. *)
Definition uniqueAmong (counted : rune -> bool) (l : list Node) : Prop :=
  NoDup (filter (fun k => counted k = true) (key <$> l)).

(** At every node of the tree, the counted sibling keys are distinct. *)
Inductive siblingKeysUnique (counted : rune -> bool) : Node -> Prop :=
| SiblingKeysUnique n :
    uniqueAmong counted (children n) ->
    Forall (siblingKeysUnique counted) (children n) ->
    siblingKeysUnique counted n.

Definition everyKey (k : rune) : bool := true.
Definition properKey (k : rune) : bool := negb (k =? eof).

(** The tries that successful inserts build from a fresh root. *)
Inductive reachable : Node -> Prop :=
| reachable_fresh : reachable emptyRoot
| reachable_insert t pattern v t' :
    reachable t -> insert t pattern v = (t', None) -> reachable t'.

(** ** Tries that no lookup tells apart *)

(** Two nodes carry the same route and, under every key, [findChild]
    finds nothing in both or children that are again alike. *)
Inductive sameLookups : Node -> Node -> Prop :=
| SameLookups n n' :
    value n = value n' ->
    (forall k, option_Forall2 sameLookups (findChild n k) (findChild n' k)) ->
    sameLookups n n'.

(** ** The pairs behind the flat encoding *)

(** Neither [':'] nor [','] occurs in [s]. *)
Definition benign (s : string) : Prop :=
  Contains s ":" = false /\ Contains s "," = false.

(** [name:value] *)
Definition entry (pair : string * string) : string :=
  (pair.1 ++ ":" ++ pair.2)%string.

(** Comma-separated [name:value] entries. *)
Definition encode (pairs : list (string * string)) : string :=
  Join (entry <$> pairs) ",".

(** The (name, value) pairs that the loop of [ParseParameter] appends
    to [result], in the order it appends them. *)
Fixpoint pairs_loop (p1 : list string) (k : nat) (p2 : list string)
    : list (string * string) :=
  match p2 with
  | [] => []
  | v :: rest =>
    match v with
    | EmptyString => pairs_loop p1 (S k) rest
    | String v0 v1 =>
      if Ascii.eqb v0 ":" then
        (v1, default EmptyString (p1 !! k)) :: pairs_loop p1 (S k) rest
      else if Ascii.eqb v0 "*" then
        [(if (1 <? String.length v)%nat then v1 else "catch"%string,
          Join (drop k p1) "/")]
      else pairs_loop p1 (S k) rest
    end
  end.

Definition ParameterPairs (matched pattern : string) : list (string * string) :=
  if Contains pattern ":" || Contains pattern "*"
  then pairs_loop (Split matched "/") 0 (Split pattern "/")
  else [].

(** A pattern segment that is neither a parameter nor a catch-all. *)
Definition plain (v : string) : Prop :=
  match v with
  | EmptyString => True
  | String c _ => c <> ":"%char /\ c <> "*"%char
  end.

(** The handler composition of section 4.5, by index:
    [onion wares h n] is [wares[n-1](wares[n-2](...wares[0](h)))]. *)
Fixpoint onion (wares : list Middleware) (h : Handler) (n : nat) : Handler :=
  match n with
  | O => h
  | S k =>
    match wares !! k with
    | Some mw => mw (onion wares h k)
    | None => onion wares h k
    end
  end.

(** ** Sample handlers and routes *)

Definition say (text : string) : RouteHandler :=
  fun response _ => response ++ [text].

(** A middleware that writes [text] and then calls onward. *)
Definition announce (text : string) : Middleware :=
  fun next response request => next (response ++ [text]) request.

Definition firstRoute : Route := mkRoute "/a" (say "first") [].
Definition secondRoute : Route := mkRoute "/a" (say "second") [].

Definition emptyRequest : Request := mkRequest "GET" "/" ∅.

(** ** Sample nodes *)

Definition paramChild : Node := newNode (rc ":") None [nodeParam].
Definition starChild : Node := newNode (rc "*") None [nodeCatchAll].
Definition literalChild : Node := newNode (rc "n") None [nodeNormal].

(** A ['/'] node with a [':'] child and a literal child ['n']. *)
Definition paramAndLiteral : Node :=
  attach (attach (newNode (rc "/") None [nodeNormal]) literalChild) paramChild.

(** A ['/'] node with a ['*'] child and a [':'] child. *)
Definition paramAndStar : Node :=
  attach (attach (newNode (rc "/") None [nodeNormal]) starChild) paramChild.

(** The trie with [/a/] registered, and the node its ['a'] stands for. *)
Definition trailingSlashTrie : Node := (insert emptyRoot "/a/" firstRoute).1.

Definition trailingSlashLevel : Node :=
  Eval vm_compute in
    match scan trailingSlashTrie "/a" with
    | Some (Some level) => level
    | _ => emptyRoot
    end.

(** The trie with [/a] registered twice. *)
Definition twiceRegistered : Node :=
  (insert (insert emptyRoot "/a" firstRoute).1 "/a" secondRoute).1.

(** A ['/'] node with a ['*'] child only. *)
Definition starOnly : Node :=
  attach (newNode (rc "/") None [nodeNormal]) starChild.

(** * The multiplexer *)

(** A [*Mux] handle.  The embedded [*Router] is one object shared by a
    mux and every group made from it, so the operations below take the
    router as an argument and return it; the record holds the fields
    that each handle has of its own.  [mux_middleware] is the contents
    of the slice when the handle is used. *)
Record Mux := mkMux {
  mux_prefix : string;
  mux_notFound : Handler;
  mux_middleware : list Middleware
}.

Section PathPackage.

(** [path.Join] and [path.Clean] of the standard library. *)
Variable pathJoin : string -> string -> string.
Variable pathClean : string -> string.

(** [mux.AddRoute(method, pattern, h)]: the shared router afterwards
    and the error. *)
Definition Mux_AddRoute (mux : Mux) (r : Router) (method pattern : string)
    (h : RouteHandler) : Router * option error :=
  let pattern :=
    if negb (String.eqb (mux_prefix mux) "")
    then pathJoin (mux_prefix mux) pattern else pattern in
  Router_addRoute r method pattern h (mux_middleware mux).

(** What serving a request does: it writes a response, or it panics on
    a nil pointer. *)
Inductive served :=
| Served (response : ResponseWriter)
| ServePanic.

(** [mux.ServeHTTP(w, r)].  The handler receives the request object
    that [Header.Set] has changed. *)
Definition Mux_ServeHTTP (mux : Mux) (r : Router) (w : ResponseWriter)
    (request : Request) : served :=
  let p := pathClean (URLPath request) in
  match Router_find r (Method request) p with
  | Err _ => Served (mux_notFound mux w request)
  | Ok None => ServePanic               (* [h.path] with [h == nil] *)
  | Ok (Some h) =>
    match ParseParameter p (path h) with
    | Panic => ServePanic
    | Return params _ =>
      let request :=
        if negb (String.eqb params "")
        then Header_Set request headerName params else request in
      Served (Route_ServeHTTP h w request)
    end
  end.

End PathPackage.

(** [errors.Is(err, errRouteNotFound)] on the errors that find returns. *)
Definition isRouteNotFound (e : error) : bool :=
  match e with
  | errRouteNotFound => true
  | _ => false
  end.

(** The closure [findRoute] of [ContainsRoute]. *)
Definition findRoute (r : Router) (p method : string) : bool * option error :=
  match Router_find r method p with
  | Ok _ => (true, None)
  | Err e => if isRouteNotFound e then (false, None) else (false, Some e)
  end.

(** The loop of [ContainsRoute] over [AllMethod]. *)
Fixpoint containsLoop (r : Router) (p : string) (methods : list string)
    : bool * option error :=
  match methods with
  | [] => (false, None)
  | method :: rest =>
    let '(ok, err) := findRoute r p method in
    if ok || negb (bool_decide (err = None)) then (ok, err)
    else containsLoop r p rest
  end.

Definition Mux_ContainsRoute (r : Router) (p method : string)
    : bool * option error :=
  if negb (String.eqb method "") then findRoute r p method
  else containsLoop r p AllMethod.

(** [mux.NotFoundHandler(handler)] *)
Definition Mux_NotFoundHandler (mux : Mux) (h : Handler) : Mux :=
  mkMux (mux_prefix mux) h (mux_middleware mux).

(** [mux.Group(pattern)]: the new handle; it shares the router. *)
Definition Mux_Group (mux : Mux) (pattern : string) : Mux :=
  mkMux pattern (mux_notFound mux) (mux_middleware mux).

(** * Vocabulary of the further properties *)

(** The code points of a string, in order. *)
Definition runes (s : string) : list rune := (range s).*2.

(** The pairs of section 4.4: each pattern segment that starts with
    [':'] gives its name and the path segment at the same index; a
    segment that starts with ['*'] gives its name, or "catch", and the
    join of the path segments that are left. *)
Fixpoint extracted (p2 p1 : list string) : list (string * string) :=
  match p2 with
  | [] => []
  | v :: p2' =>
    match v with
    | EmptyString => extracted p2' (tail p1)
    | String v0 name =>
      if Ascii.eqb v0 ":" then
        match p1 with
        | seg :: p1' => (name, seg) :: extracted p2' p1'
        | [] => []
        end
      else if Ascii.eqb v0 "*" then
        [(if String.eqb name "" then "catch"%string else name, Join p1 "/")]
      else extracted p2' (tail p1)
    end
  end.

(** [v] starts with ['*']. *)
Definition isCatchAll (v : string) : bool :=
  match v with
  | String v0 _ => Ascii.eqb v0 "*"
  | EmptyString => false
  end.

(** Only the last segment may start with ['*']. *)
Fixpoint catchAllOnlyLast (p2 : list string) : bool :=
  match p2 with
  | [] => true
  | [v] => true
  | v :: rest => negb (isCatchAll v) && catchAllOnlyLast rest
  end.

(** The field of the router that the [switch] of [addRoute] and [find]
    selects for [method]; [None] when no case matches. *)
Definition rootOf (r : Router) (method : string) : option (option Node) :=
  if String.eqb method "GET" then Some (get r)
  else if String.eqb method "POST" then Some (post r)
  else if String.eqb method "PUT" then Some (put r)
  else if String.eqb method "PATCH" then Some (patch r)
  else if String.eqb method "HEAD" then Some (head r)
  else if String.eqb method "CONNECT" then Some (connect r)
  else if String.eqb method "OPTIONS" then Some (options r)
  else if String.eqb method "TRACE" then Some (trace r)
  else if String.eqb method "DELETE" then Some (delete r)
  else None.

(** The routers that calls of [addRoute] produce from [&Router{}],
    whether the calls succeed or not. *)
Inductive routerBuilt : Router -> Prop :=
| routerBuilt_new : routerBuilt newRouter
| routerBuilt_addRoute r method p h wares :
    routerBuilt r -> routerBuilt (Router_addRoute r method p h wares).1.

(** [r] is the route of some node of the tree [n]. *)
Inductive stores : Node -> Route -> Prop :=
| stores_here n r : value n = Some r -> stores n r
| stores_below n c r : c ∈ children n -> stores c r -> stores n r.

(** [built t log]: successful inserts made the trie [t] from a fresh
    root; [log] lists their patterns and routes, the latest first. *)
Inductive built : Node -> list (string * Route) -> Prop :=
| built_fresh : built emptyRoot []
| built_insert t log pattern v t' :
    built t log -> insert t pattern v = (t', None) ->
    built t' ((pattern, v) :: log).

(** The byte 0 does not occur in [s]. *)
Definition nulFree (s : string) : Prop := Contains s "000" = false.

(** Throughout the tree, a child under the terminal key carries a route. *)
Inductive sentinelsCarry : Node -> Prop :=
| SentinelsCarry n :
    (forall c, c ∈ children n -> key c = eof -> value c <> None) ->
    Forall sentinelsCarry (children n) ->
    sentinelsCarry n.

(** The routers that [addRoute] calls with NUL-free patterns produce. *)
Inductive routerBuiltNulFree : Router -> Prop :=
| routerBuiltNulFree_new : routerBuiltNulFree newRouter
| routerBuiltNulFree_addRoute r method p h wares :
    routerBuiltNulFree r -> nulFree p ->
    routerBuiltNulFree (Router_addRoute r method p h wares).1.

(** The child that the last statement of [insert] appends. *)
Definition terminalOf (v : Route) : Node := newNode eof (Some v) [nodeEnd].

(** What is left of a pattern is empty or starts a new segment. *)
Definition startsSegment (ps : list rune) : Prop :=
  match ps with
  | [] => True
  | r :: _ => r = rc "/"
  end.

(** [generates ps qs]: the path with code points [qs] is the pattern
    with code points [ps] in which every parameter (a [':'] and the
    code points up to the next ['/']) is replaced by one or more code
    points other than ['/'], and a final ['*'] by one or more code
    points of any kind. *)
Inductive generates : list rune -> list rune -> Prop :=
| generates_end : generates [] []
| generates_literal r ps qs :
    r <> rc ":" -> r <> rc "*" -> generates ps qs ->
    generates (r :: ps) (r :: qs)
| generates_param name ps val qs :
    rc "/" ∉ name -> val <> [] -> rc "/" ∉ val -> startsSegment ps ->
    generates ps qs ->
    generates (rc ":" :: name ++ ps) (val ++ qs)
| generates_catchAll qs :
    qs <> [] -> generates [rc "*"] qs.

(** Following the code points [rs] down from [n], one [findChild] per
    code point. *)
Fixpoint descend (rs : list rune) (n : Node) : option Node :=
  match rs with
  | [] => Some n
  | r :: rest =>
    match findChild n r with
    | Some c => descend rest c
    | None => None
    end
  end.

(** A code point that is neither [':'], ['*'] nor the terminal key. *)
Definition plainRune (r : rune) : Prop :=
  r <> rc ":" /\ r <> rc "*" /\ r <> eof.

(** A pattern without parameters, catch-alls and NUL bytes. *)
Definition staticPattern (pattern : string) : Prop :=
  Contains pattern ":" = false /\ Contains pattern "*" = false /\ nulFree pattern.

(** A trie without parameter and catch-all nodes. *)
Inductive static : Node -> Prop :=
| Static n :
    classify n <> nodeParam ->
    (forall c, c ∈ children n -> key c <> rc ":" /\ key c <> rc "*") ->
    Forall static (children n) ->
    static n.

(** * Properties *)

(** Closed statements about sample tries and strings hold by running
    the definitions. *)
Ltac by_evaluation := vm_compute; reflexivity.

(** ** Children lookup *)

Lemma firstWithKey_key k l c : firstWithKey k l = Some c -> key c = k.
Proof.
  induction l as [|d l IH]; simpl; [discriminate|].
  destruct (Z.eqb_spec (key d) k); [|exact IH].
  intros [= <-]. assumption.
Qed.

Lemma firstWithKey_elem k l c : firstWithKey k l = Some c -> c ∈ l.
Proof.
  induction l as [|d l IH]; simpl; [discriminate|].
  destruct (key d =? k).
  - intros [= <-]. left.
  - intros H. right. auto.
Qed.

Lemma firstWithKey_None k l : firstWithKey k l = None <-> k ∉ key <$> l.
Proof.
  induction l as [|d l IH]; simpl.
  - split; [intros _; apply not_elem_of_nil | reflexivity].
  - rewrite not_elem_of_cons. destruct (Z.eqb_spec (key d) k) as [E|E].
    + split; [discriminate | intros [H _]; destruct H; symmetry; exact E].
    + rewrite IH. split; [intros ?; split; [intros ->; apply E; reflexivity | assumption]
                         | intros [_ ?]; assumption].
Qed.

Lemma firstWithKey_app k l l' :
  firstWithKey k (l ++ l') =
  match firstWithKey k l with Some c => Some c | None => firstWithKey k l' end.
Proof.
  induction l as [|d l IH]; simpl; [reflexivity|].
  destruct (key d =? k); [reflexivity | exact IH].
Qed.

Lemma firstWithKey_replaced k data l :
  key data = k -> is_Some (firstWithKey k l) ->
  firstWithKey k (replaceFirst k data l) = Some data.
Proof.
  intros Hk. induction l as [|d l IH]; simpl; intros [c Hc]; [discriminate|].
  destruct (key d =? k) eqn:E; simpl.
  - rewrite Hk, Z.eqb_refl. reflexivity.
  - rewrite E. apply IH. eauto.
Qed.

Lemma firstWithKey_replaced_other k k' data l :
  key data = k -> k' <> k ->
  firstWithKey k' (replaceFirst k data l) = firstWithKey k' l.
Proof.
  intros Hk Hne. induction l as [|d l IH]; simpl; [reflexivity|].
  destruct (Z.eqb_spec (key d) k) as [E|E]; simpl.
  - rewrite Hk. destruct (Z.eqb_spec k k'); [congruence|].
    destruct (Z.eqb_spec (key d) k'); [congruence | reflexivity].
  - destruct (key d =? k'); [reflexivity | exact IH].
Qed.

Lemma replaceFirst_keys k data l :
  key data = k -> key <$> replaceFirst k data l = key <$> l.
Proof.
  intros Hk. induction l as [|d l IH]; simpl; [reflexivity|].
  destruct (Z.eqb_spec (key d) k) as [E|E]; simpl.
  - rewrite Hk, E. reflexivity.
  - f_equal. exact IH.
Qed.

Lemma replaceFirst_Forall (P : Node -> Prop) k data l :
  Forall P l -> P data -> Forall P (replaceFirst k data l).
Proof.
  intros Hl Hd. induction Hl as [|d l Hd' Hl IH]; simpl; [constructor|].
  destruct (key d =? k); constructor; assumption.
Qed.

(** ** What the insert walk keeps of the node it starts from *)

Lemma insert_walk_head len v chars level :
  key (insert_walk len v chars level) = key level /\
  value (insert_walk len v chars level) = value level /\
  classify (insert_walk len v chars level) = classify level.
Proof.
  revert level. induction chars as [|[index character] rest IH]; intros level; simpl.
  - auto.
  - destruct (_ && _ && _); [apply IH|].
    destruct (findChild level character); simpl; auto.
Qed.

Lemma insert_walk_key len v chars level :
  key (insert_walk len v chars level) = key level.
Proof. apply insert_walk_head. Qed.

Lemma insert_walk_classify len v chars level :
  classify (insert_walk len v chars level) = classify level.
Proof. apply insert_walk_head. Qed.

Lemma insert_walk_value len v chars level :
  value (insert_walk len v chars level) = value level.
Proof. apply insert_walk_head. Qed.

(** ** Induction on a node with its children *)

Lemma Node_children_ind (P : Node -> Prop)
    (step : forall n, Forall P (children n) -> P n) : forall n, P n.
Proof.
  fix IH 1. intros [k v c cs]. apply step. simpl.
  induction cs as [|d cs IHcs]; constructor; [apply IH | exact IHcs].
Qed.

Lemma siblingKeysUnique_child counted n k d :
  siblingKeysUnique counted n -> findChild n k = Some d ->
  siblingKeysUnique counted d.
Proof.
  intros [m _ Hall] Hd. apply firstWithKey_elem in Hd.
  rewrite Forall_forall in Hall. auto.
Qed.

Lemma siblingKeysUnique_here counted n :
  siblingKeysUnique counted n -> uniqueAmong counted (children n).
Proof. intros [m H _]. exact H. Qed.

Lemma uniqueAmong_snoc counted l d :
  uniqueAmong counted l ->
  (counted (key d) = true -> firstWithKey (key d) l = None) ->
  uniqueAmong counted (l ++ [d]).
Proof.
  unfold uniqueAmong. intros Hl Hd.
  rewrite fmap_app, filter_app. simpl.
  destruct (counted (key d)) eqn:E.
  - rewrite filter_cons_True by exact E. rewrite filter_nil.
    apply NoDup_app. split; [exact Hl|]. split; [|apply NoDup_singleton].
    intros x Hx Hx'. apply list_elem_of_singleton in Hx'. subst x.
    apply list_elem_of_filter in Hx as [_ Hx].
    specialize (Hd eq_refl). apply firstWithKey_None in Hd. contradiction.
  - rewrite filter_cons_False by (rewrite E; discriminate).
    rewrite filter_nil, app_nil_r. exact Hl.
Qed.

Lemma siblingKeysUnique_leaf counted k v cl :
  siblingKeysUnique counted (newNode k v cl).
Proof. constructor; simpl; [apply NoDup_nil_2 | constructor]. Qed.

Lemma insert_walk_siblingKeysUnique len v chars level :
  siblingKeysUnique properKey level ->
  siblingKeysUnique properKey (insert_walk len v chars level).
Proof.
  revert level. induction chars as [|[index character] rest IH]; intros level Hl; simpl.
  - destruct Hl as [level Hu Hall]. constructor; simpl.
    + apply uniqueAmong_snoc; [exact Hu | discriminate].
    + apply Forall_app. split; [exact Hall|].
      constructor; [apply siblingKeysUnique_leaf | constructor].
  - destruct (_ && _ && _); [apply IH; exact Hl|].
    destruct (findChild level character) as [child|] eqn:Hc.
    + pose proof (siblingKeysUnique_child _ _ _ _ Hl Hc) as Hchild.
      destruct Hl as [level Hu Hall]. constructor; simpl.
      * unfold uniqueAmong. rewrite replaceFirst_keys; [exact Hu|].
        rewrite insert_walk_key. eapply firstWithKey_key, Hc.
      * apply replaceFirst_Forall; [exact Hall | apply IH, Hchild].
    + destruct Hl as [level Hu Hall]. constructor; simpl.
      * apply uniqueAmong_snoc; [exact Hu|].
        rewrite insert_walk_key. simpl. intros _. exact Hc.
      * apply Forall_app. split; [exact Hall|].
        constructor; [apply IH, siblingKeysUnique_leaf | constructor].
Qed.

Lemma insert_ok_walk node pattern v t' :
  insert node pattern v = (t', None) ->
  t' = insert_walk (String.length pattern) v (range pattern) node.
Proof.
  unfold insert.
  destruct (negb (Classify_eqb (classify node) NodeRoot)); [discriminate|].
  destruct (String.eqb pattern ""); [discriminate|].
  destruct (negb (firstByteIsSlash pattern)); [discriminate|].
  intros [= <-]. reflexivity.
Qed.

(** ** Lookups on alike tries *)

Lemma sameLookups_refl n : sameLookups n n.
Proof.
  induction n as [n IH] using Node_children_ind.
  constructor; [reflexivity|]. intros k.
  destruct (findChild n k) as [c|] eqn:Hc; constructor.
  rewrite Forall_forall in IH. apply IH. eapply firstWithKey_elem, Hc.
Qed.

Lemma sameLookups_findChild n n' k :
  sameLookups n n' -> option_Forall2 sameLookups (findChild n k) (findChild n' k).
Proof. intros [? ? _ H]. apply H. Qed.

Lemma sameLookups_value n n' : sameLookups n n' -> value n = value n'.
Proof. intros [? ? H _]. exact H. Qed.

Lemma find_step_sameLookups len n n' isParam k ch :
  sameLookups n n' ->
  match find_step len n isParam k ch, find_step len n' isParam k ch with
  | Stay, Stay => True
  | Descend c p, Descend c' p' => sameLookups c c' /\ p = p'
  | Break c, Break c' => sameLookups c c'
  | Miss, Miss => True
  | _, _ => False
  end.
Proof.
  intros H. unfold find_step.
  destruct (isParam && (k <? len)%nat && negb (ch =? rc "/")); [exact I|].
  destruct (sameLookups_findChild _ _ (rc ":") H); [split; [assumption|reflexivity]|].
  destruct (sameLookups_findChild _ _ (rc "*") H); [assumption|].
  destruct (sameLookups_findChild _ _ ch H); [split; [assumption|reflexivity] | exact I].
Qed.

Lemma find_walk_sameLookups len chars n n' isParam :
  sameLookups n n' ->
  option_Forall2 sameLookups
    (find_walk len chars n isParam) (find_walk len chars n' isParam).
Proof.
  revert n n' isParam.
  induction chars as [|[k ch] rest IH]; intros n n' isParam H; simpl.
  - constructor. exact H.
  - pose proof (find_step_sameLookups len n n' isParam k ch H) as Hs.
    destruct (find_step len n isParam k ch), (find_step len n' isParam k ch);
      try contradiction.
    + apply IH, H.
    + destruct Hs as [Hc ->]. apply IH, Hc.
    + constructor. exact Hs.
    + constructor.
Qed.

Lemma resolve_sameLookups n n' : sameLookups n n' -> resolve n = resolve n'.
Proof.
  intros H. unfold resolve.
  destruct (sameLookups_findChild _ _ eof H) as [e e' He|].
  - rewrite (sameLookups_value _ _ He). reflexivity.
  - destruct (sameLookups_findChild _ _ (rc "/") H) as [s s' Hs|]; [|reflexivity].
    destruct (sameLookups_findChild _ _ eof Hs) as [e e' He|]; [|reflexivity].
    rewrite (sameLookups_value _ _ He). reflexivity.
Qed.

Lemma find_sameLookups n n' p :
  classify n = classify n' -> sameLookups n n' -> find n p = find n' p.
Proof.
  intros Hcl H. unfold find, scan. rewrite Hcl.
  destruct (negb (Classify_eqb (classify n') NodeRoot)); [reflexivity|].
  destruct (range p) as [|c chars]; [reflexivity|].
  destruct (find_walk_sameLookups (String.length p) (c :: chars) n n' false H)
    as [l l' Hl|]; [apply resolve_sameLookups, Hl | reflexivity].
Qed.

(** Putting an alike child back where [findChild] found one. *)
Lemma sameLookups_setChild n k c c' :
  findChild n k = Some c -> key c' = k -> sameLookups c c' ->
  sameLookups n (setChild n k c').
Proof.
  intros Hc Hk Hcc. constructor; [reflexivity|]. intros k'.
  unfold findChild at 2. simpl.
  destruct (Z.eq_dec k' k) as [->|Hne].
  - rewrite firstWithKey_replaced by (done || eauto).
    unfold findChild in Hc |- *. rewrite Hc. constructor. exact Hcc.
  - rewrite firstWithKey_replaced_other by assumption.
    destruct (findChild n k') eqn:E; unfold findChild in E; rewrite E;
      constructor. apply sameLookups_refl.
Qed.

(** Appending a child under a key that is already taken. *)
Lemma sameLookups_attach_taken n d :
  is_Some (findChild n (key d)) -> sameLookups n (attach n d).
Proof.
  intros [c Hc]. constructor; [reflexivity|]. intros k.
  unfold findChild in *. simpl. rewrite firstWithKey_app.
  destruct (firstWithKey k (children n)) as [c'|] eqn:E.
  - constructor. apply sameLookups_refl.
  - simpl. destruct (Z.eqb_spec (key d) k) as [Hk|Hk]; [|constructor].
    congruence.
Qed.

(** Walking the same pattern a second time changes no lookup. *)
Lemma insert_walk_again len v1 v2 chars level :
  sameLookups (insert_walk len v1 chars level)
    (insert_walk len v2 chars (insert_walk len v1 chars level)).
Proof.
  revert level. induction chars as [|[index character] rest IH]; intros level.
  - simpl. apply sameLookups_attach_taken. simpl.
    unfold findChild. simpl. rewrite firstWithKey_app.
    destruct (firstWithKey eof (children level)); simpl; eauto.
  - cbn [insert_walk].
    destruct (Classify_eqb (classify level) nodeParam
              && (index <? len)%nat && negb (character =? rc "/")) eqn:Hskip.
    + rewrite insert_walk_classify, Hskip. apply IH.
    + destruct (findChild level character) as [child|] eqn:Hc.
      * set (c1 := insert_walk len v1 rest child).
        assert (Hk1 : key c1 = character).
        { unfold c1. rewrite insert_walk_key. eapply firstWithKey_key, Hc. }
        assert (H1 : findChild (setChild level character c1) character = Some c1).
        { unfold findChild. simpl. apply firstWithKey_replaced; [exact Hk1 | eauto]. }
        rewrite H1. cbn [classify setChild]. rewrite Hskip.
        eapply sameLookups_setChild; [exact H1 | | apply IH].
        rewrite insert_walk_key. exact Hk1.
      * set (c1 := insert_walk len v1 rest (newNode character None [branchKind character])).
        assert (Hk1 : key c1 = character).
        { unfold c1. rewrite insert_walk_key. reflexivity. }
        assert (H1 : findChild (attach level c1) character = Some c1).
        { unfold findChild in *. simpl. rewrite firstWithKey_app, Hc. simpl.
          rewrite Hk1, Z.eqb_refl. reflexivity. }
        rewrite H1. cbn [classify attach]. rewrite Hskip.
        eapply sameLookups_setChild; [exact H1 | | apply IH].
        rewrite insert_walk_key. exact Hk1.
Qed.

(** ** Split, Join and Contains *)

Lemma Contains_app s t c :
  Contains (s ++ t)%string c = Contains s c || Contains t c.
Proof.
  induction s as [|a s IH]; simpl; [reflexivity|].
  rewrite IH. apply orb_assoc.
Qed.

Lemma Split_cons s sep : exists piece more, Split s sep = piece :: more.
Proof.
  destruct s as [|c t]; simpl; [eauto|].
  destruct (Ascii.eqb c sep); [eauto|].
  destruct (Split t sep); eauto.
Qed.

Lemma Split_length_pos s sep : (0 < length (Split s sep))%nat.
Proof. destruct (Split_cons s sep) as (piece & more & ->). simpl. lia. Qed.

Lemma Split_free s sep : Contains s sep = false -> Split s sep = [s].
Proof.
  induction s as [|c t IH]; simpl; [reflexivity|].
  intros H. apply orb_false_elim in H as [Hc Ht].
  rewrite Hc, (IH Ht). reflexivity.
Qed.

Lemma Split_app s t sep :
  Contains s sep = false ->
  Split (s ++ String sep t)%string sep = s :: Split t sep.
Proof.
  induction s as [|c s IH]; simpl.
  - intros _. rewrite Ascii.eqb_refl. reflexivity.
  - intros H. apply orb_false_elim in H as [Hc Hs].
    rewrite Hc, (IH Hs). reflexivity.
Qed.

Lemma Split_pieces_free s sep piece :
  piece ∈ Split s sep -> Contains piece sep = false.
Proof.
  revert piece. induction s as [|c t IH]; simpl; intros piece Hin.
  - apply list_elem_of_singleton in Hin. subst. reflexivity.
  - destruct (Ascii.eqb c sep) eqn:Hc.
    + apply elem_of_cons in Hin as [->|Hin]; [reflexivity | auto].
    + destruct (Split t sep) as [|p more].
      * apply list_elem_of_singleton in Hin. subst. simpl. rewrite Hc. reflexivity.
      * apply elem_of_cons in Hin as [->|Hin].
        -- simpl. rewrite Hc. apply IH. left.
        -- apply IH. right. exact Hin.
Qed.

Lemma Split_pieces_within s sep piece c :
  piece ∈ Split s sep -> Contains piece c = true -> Contains s c = true.
Proof.
  revert piece. induction s as [|a t IH]; simpl; intros piece Hin Hc.
  - apply list_elem_of_singleton in Hin. subst. discriminate.
  - apply orb_true_iff. destruct (Ascii.eqb a sep).
    + apply elem_of_cons in Hin as [->|Hin]; [discriminate|]. right. eauto.
    + destruct (Split t sep) as [|p more].
      * apply list_elem_of_singleton in Hin. subst. simpl in Hc.
        rewrite orb_false_r in Hc. left. exact Hc.
      * apply elem_of_cons in Hin as [->|Hin].
        -- simpl in Hc. apply orb_true_iff in Hc as [Hc|Hc]; [left; exact Hc|].
           right. apply (IH p); [left | exact Hc].
        -- right. apply (IH piece); [right; exact Hin | exact Hc].
Qed.

Lemma Split_Join elems sep :
  elems <> [] -> Forall (fun e => Contains e sep = false) elems ->
  Split (Join elems (String sep EmptyString)) sep = elems.
Proof.
  induction elems as [|e more IH]; [congruence|]. intros _ Hall.
  apply Forall_cons in Hall as [He Hmore].
  destruct more as [|e' more'].
  - simpl. apply Split_free, He.
  - change (Join (e :: e' :: more') (String sep ""))
      with (e ++ String sep (Join (e' :: more') (String sep "")))%string.
    rewrite Split_app by exact He. f_equal. apply IH; [discriminate | exact Hmore].
Qed.

Lemma String_append_assoc (a b c : string) :
  ((a ++ b) ++ c = a ++ (b ++ c))%string.
Proof.
  induction a as [|x a IH]; [reflexivity|].
  change (String x ((a ++ b) ++ c) = String x (a ++ (b ++ c)))%string.
  f_equal. exact IH.
Qed.

Lemma Join_snoc elems e sep :
  Join (elems ++ [e]) sep =
  match elems with
  | [] => e
  | _ => (Join elems sep ++ sep ++ e)%string
  end.
Proof.
  induction elems as [|a more IH]; [reflexivity|].
  destruct more as [|b more'].
  - reflexivity.
  - change (Join ((a :: b :: more') ++ [e]) sep)
      with (a ++ sep ++ Join ((b :: more') ++ [e]) sep)%string.
    rewrite IH.
    change (Join (a :: b :: more') sep)
      with (a ++ sep ++ Join (b :: more') sep)%string.
    rewrite !String_append_assoc. reflexivity.
Qed.

(** ** The encoding of the extracted pairs *)

Lemma length_zero_empty s : (String.length s =? 0)%nat = true <-> s = EmptyString.
Proof. destruct s; simpl; split; congruence. Qed.

Lemma entry_has_colon pair : Contains (entry pair) ":" = true.
Proof.
  unfold entry. rewrite Contains_app. apply orb_true_iff. right. reflexivity.
Qed.

Lemma Join_head_contains e more sep c :
  Contains e c = true -> Contains (Join (e :: more) sep) c = true.
Proof.
  intros He. destruct more as [|e' more']; [exact He|].
  change (Join (e :: e' :: more') sep)
    with (e ++ sep ++ Join (e' :: more') sep)%string.
  rewrite Contains_app, He. reflexivity.
Qed.

Lemma encode_empty pairs : encode pairs = EmptyString -> pairs = [].
Proof.
  destruct pairs as [|x more]; [reflexivity|]. intros H.
  assert (Hc : Contains (encode (x :: more)) ":" = true).
  { unfold encode. rewrite fmap_cons. apply Join_head_contains, entry_has_colon. }
  rewrite H in Hc. discriminate.
Qed.

Lemma encode_snoc pairs x :
  encode (pairs ++ [x]) =
  if (String.length (encode pairs) =? 0)%nat then entry x
  else (encode pairs ++ "," ++ entry x)%string.
Proof.
  unfold encode. rewrite fmap_app. simpl. rewrite Join_snoc.
  destruct pairs as [|y more]; [reflexivity|].
  destruct (String.length (Join (entry <$> y :: more) ",") =? 0)%nat eqn:E;
    [|reflexivity].
  apply length_zero_empty, (encode_empty (y :: more)) in E. discriminate.
Qed.

(** The loop appends to [result] exactly the entries of [pairs_loop]. *)
Lemma parse_loop_encode p1 s2 p2 : forall k acc res,
  parse_loop p1 s2 k p2 (encode acc) = Return res None ->
  res = encode (acc ++ pairs_loop p1 k p2).
Proof.
  induction p2 as [|v rest IH]; intros k acc res; simpl.
  - intros [= <-]. rewrite app_nil_r. reflexivity.
  - destruct v as [|v0 v1]; [apply IH|].
    destruct (Ascii.eqb v0 ":").
    + destruct (p1 !! k) as [seg|]; [|discriminate]. simpl.
      pose proof (encode_snoc acc (v1, seg)) as Hs. unfold entry in Hs. simpl in Hs.
      change (acc ++ (v1, seg) :: pairs_loop p1 (S k) rest)
        with (acc ++ [(v1, seg)] ++ pairs_loop p1 (S k) rest).
      rewrite app_assoc.
      destruct (String.length (encode acc) =? 0)%nat; rewrite <- Hs; apply IH.
    + destruct (Ascii.eqb v0 "*"); [|apply IH].
      destruct (negb (k =? s2 - 1)%nat); [discriminate|].
      destruct (length p1 <? k)%nat; [discriminate|].
      set (name := if (1 <? String.length (String v0 v1))%nat then v1 else "catch"%string).
      pose proof (encode_snoc acc (name, Join (drop k p1) "/")) as Hs.
      unfold entry in Hs. simpl in Hs.
      destruct (String.length (encode acc) =? 0)%nat; intros [= <-]; exact (eq_sym Hs).
Qed.

Lemma ParseParameter_encode matched pattern res :
  ParseParameter matched pattern = Return res None ->
  res = encode (ParameterPairs matched pattern).
Proof.
  unfold ParseParameter, ParameterPairs.
  destruct (Contains pattern ":" || Contains pattern "*"); [|intros [= <-]; reflexivity].
  destruct (_ <? _)%nat; [discriminate|].
  apply (parse_loop_encode _ _ _ 0%nat []).
Qed.

(** ** Load *)

Lemma load_entry_benign m e :
  Contains e "," = false ->
  (forall n v, m !! n = Some v -> benign v) ->
  forall n v, load_entry m e !! n = Some v -> benign v.
Proof.
  intros He Hm n v. unfold load_entry.
  destruct (Split e ":") as [|name [|val [|? ?]]] eqn:Hs; try apply Hm.
  destruct (decide (name = n)) as [->|Hne].
  - rewrite lookup_insert_eq. intros [= <-].
    assert (Hin : val ∈ Split e ":") by (rewrite Hs; right; left).
    split; [eapply Split_pieces_free, Hin|].
    destruct (Contains val ",") eqn:Hv; [|reflexivity].
    rewrite (Split_pieces_within _ _ _ _ Hin Hv) in He. discriminate.
  - rewrite lookup_insert_ne by exact Hne. apply Hm.
Qed.

Lemma fold_load_benign entries : forall m,
  Forall (fun e => Contains e "," = false) entries ->
  (forall n v, m !! n = Some v -> benign v) ->
  forall n v, fold_left load_entry entries m !! n = Some v -> benign v.
Proof.
  induction entries as [|e more IH]; intros m Hall Hm; simpl; [exact Hm|].
  apply Forall_cons in Hall as [He Hmore].
  apply IH; [exact Hmore | apply load_entry_benign; assumption].
Qed.

(** Whatever the source, [Load] stores only values without [':'] and [',']. *)
Lemma Load_values_benign source n v :
  Parameter_Load ∅ source !! n = Some v -> benign v.
Proof.
  unfold Parameter_Load. apply fold_load_benign.
  - apply Forall_forall. intros e He. eapply Split_pieces_free, He.
  - intros n' v'. rewrite lookup_empty. discriminate.
Qed.

Lemma load_entry_entry m n v :
  Contains n ":" = false -> Contains v ":" = false ->
  load_entry m (entry (n, v)) = <[n := v]> m.
Proof.
  intros Hn Hv. unfold load_entry, entry. simpl.
  change (n ++ ":" ++ v)%string with (n ++ String ":" v)%string.
  rewrite Split_app by exact Hn. rewrite Split_free by exact Hv. reflexivity.
Qed.

Lemma entry_no_comma n v :
  Contains n "," = false -> Contains v "," = false ->
  Contains (entry (n, v)) "," = false.
Proof.
  intros Hn Hv. unfold entry. simpl. rewrite Contains_app, Hn.
  change (":" ++ v)%string with (String ":" v). simpl. exact Hv.
Qed.

Lemma fold_load_other pairs : forall m n,
  Forall (fun p => Contains p.1 ":" = false /\ Contains p.2 ":" = false) pairs ->
  n ∉ pairs.*1 ->
  fold_left load_entry (entry <$> pairs) m !! n = m !! n.
Proof.
  induction pairs as [|[a b] more IH]; intros m n Hall Hn; simpl; [reflexivity|].
  apply Forall_cons in Hall as [[Ha Hb] Hmore]. simpl in *.
  apply not_elem_of_cons in Hn as [Hne Hn].
  rewrite IH by assumption. rewrite load_entry_entry by assumption.
  apply lookup_insert_ne. congruence.
Qed.

Lemma fold_load_recovers pairs : forall m n v,
  Forall (fun p => Contains p.1 ":" = false /\ Contains p.2 ":" = false) pairs ->
  NoDup pairs.*1 -> (n, v) ∈ pairs ->
  fold_left load_entry (entry <$> pairs) m !! n = Some v.
Proof.
  induction pairs as [|[a b] more IH]; intros m n v Hall Hnd Hin; simpl.
  - apply elem_of_nil in Hin. contradiction.
  - apply Forall_cons in Hall as [[Ha Hb] Hmore]. simpl in *.
    apply NoDup_cons in Hnd as [Hfresh Hnd].
    apply elem_of_cons in Hin as [[= -> ->]|Hin].
    + rewrite fold_load_other by assumption.
      rewrite load_entry_entry by assumption. apply lookup_insert_eq.
    + apply IH; assumption.
Qed.

(** With parameter names that are distinct and free of [':'] and [','],
    benign values all come back from the encoding. *)
Lemma Load_encode_recovers pairs n v :
  NoDup pairs.*1 -> Forall benign pairs.*1 -> Forall benign pairs.*2 ->
  (n, v) ∈ pairs -> Parameter_Load ∅ (encode pairs) !! n = Some v.
Proof.
  intros Hnd Hnames Hvals Hin. unfold Parameter_Load, encode.
  assert (Hpairs : Forall (fun p => benign p.1 /\ benign p.2) pairs).
  { apply Forall_forall. intros [a b] Hab. split.
    - rewrite Forall_forall in Hnames. apply Hnames.
      apply list_elem_of_fmap. exists (a, b). auto.
    - rewrite Forall_forall in Hvals. apply Hvals.
      apply list_elem_of_fmap. exists (a, b). auto. }
  change ","%string with (String "," EmptyString) at 1.
  rewrite Split_Join.
  - apply fold_load_recovers; [|assumption..].
    eapply Forall_impl; [exact Hpairs|]. intros [a b] [[? _] [? _]]. auto.
  - destruct pairs; [apply elem_of_nil in Hin; contradiction | discriminate].
  - apply Forall_fmap. eapply Forall_impl; [exact Hpairs|].
    intros [a b] [[_ ?] [_ ?]]. simpl. apply entry_no_comma; assumption.
Qed.

(** ** The extraction loop *)

(** Segments that are neither parameters nor catch-alls are skipped. *)
Lemma parse_loop_plain p1 s2 pre : forall k tail result,
  Forall plain pre ->
  parse_loop p1 s2 k (pre ++ tail) result =
  parse_loop p1 s2 (k + length pre) tail result.
Proof.
  induction pre as [|v pre IH]; intros k tail result Hall; simpl.
  - rewrite Nat.add_0_r. reflexivity.
  - apply Forall_cons in Hall as [Hv Hpre].
    replace (k + S (length pre))%nat with (S k + length pre)%nat by lia.
    destruct v as [|v0 v1]; [apply IH, Hpre|].
    destruct Hv as [Hc Hs].
    destruct (Ascii.eqb_spec v0 ":"); [contradiction|].
    destruct (Ascii.eqb_spec v0 "*"); [contradiction|].
    apply IH, Hpre.
Qed.

(** A segment that starts with ['*'] and has a successor stops the loop
    with [errBadPattern], wherever it stands. *)
Lemma parse_loop_star_not_last p1 s2 pre name post :
  post <> [] -> (s2 <= length p1)%nat ->
  forall k result,
    (k + length (pre ++ String "*" name :: post) = s2)%nat ->
    exists res,
      parse_loop p1 s2 k (pre ++ String "*" name :: post) result
      = Return res (Some errBadPattern).
Proof.
  intros Hpost Hlen.
  assert (Hp : (0 < length post)%nat) by (destruct post; [congruence | simpl; lia]).
  induction pre as [|v pre IH]; intros k result Hk; simpl in *.
  - destruct (Nat.eqb_spec k (s2 - 1)); [lia|]. simpl. eauto.
  - rewrite length_app in *. simpl in *.
    assert (Hk' : (S k + (length pre + S (length post)) = s2)%nat) by lia.
    destruct v as [|v0 v1]; [apply IH, Hk'|].
    destruct (Ascii.eqb v0 ":").
    + destruct (p1 !! k) as [seg|] eqn:Hseg.
      * destruct (String.length result =? 0)%nat; apply IH, Hk'.
      * apply lookup_ge_None in Hseg. lia.
    + destruct (Ascii.eqb v0 "*"); [|apply IH, Hk'].
      destruct (Nat.eqb_spec k (s2 - 1)); [lia|]. simpl. eauto.
Qed.

(** A catch-all in last position, after plain segments only. *)
Lemma parse_loop_catch_all p1 pre name :
  Forall plain pre -> (length pre < length p1)%nat ->
  parse_loop p1 (length (pre ++ [String "*" name])) 0
    (pre ++ [String "*" name]) EmptyString
  = Return ((if String.eqb name "" then "catch" else name) ++ ":"
            ++ Join (drop (length pre) p1) "/")%string None.
Proof.
  intros Hpre Hlen. rewrite parse_loop_plain by exact Hpre. simpl.
  rewrite length_app. simpl.
  replace (length pre + 1 - 1)%nat with (length pre) by lia.
  rewrite Nat.eqb_refl. simpl.
  destruct (Nat.ltb_spec (length p1) (length pre)); [lia|].
  destruct name; reflexivity.
Qed.

Lemma Split_segment_within s seg c :
  seg ∈ Split s "/" -> Contains seg c = true -> Contains s c = true.
Proof. apply Split_pieces_within. Qed.

(** ** One step of find *)

Lemma find_step_param len level isParam k ch param :
  findChild level (rc ":") = Some param ->
  isParam && (k <? len)%nat && negb (ch =? rc "/") = false ->
  find_step len level isParam k ch = Descend param true.
Proof. intros Hp Hmid. unfold find_step. rewrite Hmid, Hp. reflexivity. Qed.

Lemma find_step_catchAll len level isParam k ch catchAll :
  findChild level (rc ":") = None ->
  findChild level (rc "*") = Some catchAll ->
  isParam && (k <? len)%nat && negb (ch =? rc "/") = false ->
  find_step len level isParam k ch = Break catchAll.
Proof. intros Hp Hc Hmid. unfold find_step. rewrite Hmid, Hp, Hc. reflexivity. Qed.

(** ** The first byte of a pattern *)

Lemma byte_of_slash a : byte_of a = 47 -> a = "/"%char.
Proof.
  unfold byte_of. intros H.
  rewrite <- (ascii_N_embedding a).
  change 47 with (Z.of_N 47) in H. apply N2Z.inj in H.
  rewrite H. reflexivity.
Qed.

Lemma firstByteIsSlash_spec pattern :
  firstByteIsSlash pattern = true <-> exists rest, pattern = String "/" rest.
Proof.
  destruct pattern as [|a rest]; simpl.
  - split; [discriminate | intros [? [=]]].
  - rewrite Z.eqb_eq. split.
    + intros H. apply byte_of_slash in H. subst. eauto.
    + intros [? [= -> _]]. reflexivity.
Qed.

(** ** Middleware folding *)

Lemma onion_app wares more h n :
  (n <= length wares)%nat -> onion (wares ++ more) h n = onion wares h n.
Proof.
  induction n as [|n IH]; intros Hn; simpl; [reflexivity|].
  rewrite lookup_app_l by exact Hn.
  rewrite IH by (apply Nat.lt_le_incl, Hn). reflexivity.
Qed.

Lemma fold_onion wares h :
  fold_left (fun (base : Handler) (mw : Middleware) => mw base) wares h
  = onion wares h (length wares).
Proof.
  induction wares as [|mw wares IH] using rev_ind; [reflexivity|].
  rewrite fold_left_app, length_app. simpl.
  rewrite Nat.add_1_r. simpl.
  rewrite lookup_app_r by apply Nat.le_refl. rewrite Nat.sub_diag. simpl.
  rewrite onion_app by apply Nat.le_refl. rewrite IH. reflexivity.
Qed.

Lemma insert_slash_ok node rest v :
  classify node = NodeRoot ->
  insert node (String "/" rest) v
  = (insert_walk (String.length (String "/" rest)) v
       (range (String "/" rest)) node, None).
Proof. intros Hroot. unfold insert. rewrite Hroot. reflexivity. Qed.

(** * The claims *)

(** C1 (the code departs from it).  With [/hello/*name] registered for
    a method, the registration succeeds and extraction on
    [/hello/my/magical/sheeplike/ship] would give
    [name:my/magical/sheeplike/ship], yet the lookup itself fails with
    [errRouteNotFound]: insert hangs the characters of the name below
    the ['*'] node and puts the terminal under the last of them, while
    find stops on the ['*'] node and looks for the terminal there. *)
Theorem named_catch_all_lookup :
  Forall (fun method =>
    forall h wares,
      (Router_addRoute newRouter method "/hello/*name" h wares).2 = None /\
      Router_find (Router_addRoute newRouter method "/hello/*name" h wares).1
        method "/hello/my/magical/sheeplike/ship" = Err errRouteNotFound) AllMethod /\
  ParseParameter "/hello/my/magical/sheeplike/ship" "/hello/*name"
    = Return "name:my/magical/sheeplike/ship" None.
Proof.
  split; [|by_evaluation].
  unfold AllMethod. repeat constructor; by_evaluation.
Qed.

(** C4.  With [/users/:id] and [/users/new] registered for one method,
    in either order, looking up [/users/new] returns the [/users/:id]
    route and extraction yields the single pair id = "new"; and in
    general a step of find that is not swallowed by a running parameter
    descends into the [':'] child of the node even when the node has a
    literal child for the character read. *)
Theorem parameter_wins_over_literal :
  Forall (fun method =>
    forall h1 h2 w1 w2,
      Router_find
        (Router_addRoute (Router_addRoute newRouter method "/users/:id" h1 w1).1
           method "/users/new" h2 w2).1 method "/users/new"
      = Ok (Some (mkRoute "/users/:id" h1 w1)) /\
      Router_find
        (Router_addRoute (Router_addRoute newRouter method "/users/new" h2 w2).1
           method "/users/:id" h1 w1).1 method "/users/new"
      = Ok (Some (mkRoute "/users/:id" h1 w1))) AllMethod /\
  ParseParameter "/users/new" "/users/:id" = Return "id:new" None /\
  Parameter_Load ∅ "id:new" = {[ "id"%string := "new"%string ]} /\
  (forall len level isParam k ch param literal,
      findChild level (rc ":") = Some param ->
      findChild level ch = Some literal ->
      isParam && (k <? len)%nat && negb (ch =? rc "/") = false ->
      find_step len level isParam k ch = Descend param true).
Proof.
  split; [|split; [|split]].
  - unfold AllMethod. repeat constructor; by_evaluation.
  - by_evaluation.
  - by_evaluation.
  - intros len level isParam k ch param literal Hp _ Hmid.
    apply find_step_param; assumption.
Qed.

Lemma parameter_wins_over_literal_witness :
  find_step 10 paramAndLiteral false 7 (rc "n") = Descend paramChild true.
Proof.
  destruct parameter_wins_over_literal as (_ & _ & _ & H).
  apply (H 10%nat paramAndLiteral false 7%nat (rc "n") paramChild literalChild);
    reflexivity.
Defined.

(** C5, as the spec words it, fails: a node with a [':'] child and a
    ['*'] child does not select the ['*'] child, and with [/a/:x] and
    [/a/*y] registered for GET the path [/a/b] resolves to the [/a/:x]
    route. *)
Lemma catch_all_does_not_win_over_parameter :
  ~ (forall len level k ch param catchAll,
        findChild level (rc ":") = Some param ->
        findChild level (rc "*") = Some catchAll ->
        find_step len level false k ch = Break catchAll) /\
  Router_find
    (Router_addRoute
       (Router_addRoute newRouter "GET" "/a/:x" (say "x") []).1
       "GET" "/a/*y" (say "y") []).1 "GET" "/a/b"
  = Ok (Some (mkRoute "/a/:x" (say "x") [])).
Proof.
  split; [|by_evaluation].
  intros H.
  specialize (H 4%nat paramAndStar 3%nat (rc "b") paramChild starChild eq_refl eq_refl).
  vm_compute in H. discriminate H.
Qed.

(** C5, amended.  At a node that has both a [':'] child and a ['*']
    child, a step of find that is not swallowed by a running parameter
    descends into the [':'] child; the ['*'] child is taken, and ends
    the scan, only when the node has no [':'] child, and then whatever
    literal children there are.  With [/a/:x] and [/a/*y] registered for
    one method, in either order, [/a/b] resolves to the [/a/:x] route. *)
Theorem parameter_wins_over_catch_all :
  (forall len level isParam k ch param catchAll,
      findChild level (rc ":") = Some param ->
      findChild level (rc "*") = Some catchAll ->
      isParam && (k <? len)%nat && negb (ch =? rc "/") = false ->
      find_step len level isParam k ch = Descend param true) /\
  (forall len level isParam k ch catchAll,
      findChild level (rc ":") = None ->
      findChild level (rc "*") = Some catchAll ->
      isParam && (k <? len)%nat && negb (ch =? rc "/") = false ->
      find_step len level isParam k ch = Break catchAll) /\
  Forall (fun method =>
    forall h1 h2 w1 w2,
      Router_find
        (Router_addRoute (Router_addRoute newRouter method "/a/:x" h1 w1).1
           method "/a/*y" h2 w2).1 method "/a/b"
      = Ok (Some (mkRoute "/a/:x" h1 w1)) /\
      Router_find
        (Router_addRoute (Router_addRoute newRouter method "/a/*y" h2 w2).1
           method "/a/:x" h1 w1).1 method "/a/b"
      = Ok (Some (mkRoute "/a/:x" h1 w1))) AllMethod.
Proof.
  split; [|split].
  - intros len level isParam k ch param catchAll Hp _ Hmid.
    apply find_step_param; assumption.
  - intros len level isParam k ch catchAll Hp Hc Hmid.
    apply find_step_catchAll; assumption.
  - unfold AllMethod. repeat constructor; by_evaluation.
Qed.

Lemma parameter_wins_over_catch_all_witness :
  find_step 4 paramAndStar false 3 (rc "b") = Descend paramChild true /\
  find_step 4 starOnly false 3 (rc "b") = Break starChild.
Proof.
  destruct parameter_wins_over_catch_all as (Hp & Hc & _). split.
  - apply (Hp 4%nat paramAndStar false 3%nat (rc "b") paramChild starChild);
      reflexivity.
  - apply (Hc 4%nat starOnly false 3%nat (rc "b") starChild); reflexivity.
Defined.

(** C6.  insert returns an error exactly when the receiver is not a
    root node ("insert on non root node"), the pattern is empty ("empty
    pattern is not support") or the pattern does not start with ['/']
    ("path must start with '/'"); on a root node every pattern that
    starts with ['/'] is inserted without error; and whenever an error
    is returned the receiver is as it was. *)
Theorem insert_error_cases (node : Node) (pattern : string) (v : Route) :
  (classify node <> NodeRoot ->
     insert node pattern v = (node, Some errInsertOnNonRoot)) /\
  (classify node = NodeRoot -> pattern = EmptyString ->
     insert node pattern v = (node, Some errEmptyPattern)) /\
  (classify node = NodeRoot -> pattern <> EmptyString ->
     (forall rest, pattern <> String "/" rest) ->
     insert node pattern v = (node, Some errMustStartWithSlash)) /\
  (classify node = NodeRoot -> forall rest, pattern = String "/" rest ->
     (insert node pattern v).2 = None) /\
  (forall e, (insert node pattern v).2 = Some e ->
     (insert node pattern v).1 = node /\
     (classify node <> NodeRoot \/ pattern = EmptyString \/
      forall rest, pattern <> String "/" rest)).
Proof.
  unfold insert.
  destruct (Classify_eqb (classify node) NodeRoot) eqn:Hroot; simpl.
  - assert (Hcl : classify node = NodeRoot) by (destruct (classify node); (reflexivity || discriminate)).
    destruct (String.eqb_spec pattern "") as [Hempty|Hempty].
    { repeat split; try congruence; auto. }
    destruct (firstByteIsSlash pattern) eqn:Hslash; simpl.
    + apply firstByteIsSlash_spec in Hslash as [rest ->].
      repeat split; congruence.
    + assert (Hno : forall rest, pattern <> String "/" rest).
      { intros rest ->. simpl in Hslash. discriminate. }
      repeat split; try congruence; auto.
  - assert (Hcl : classify node <> NodeRoot) by (intros E; rewrite E in Hroot; discriminate).
    repeat split; try congruence; auto.
Qed.

Lemma insert_error_cases_witness :
  insert paramChild "/a" firstRoute = (paramChild, Some errInsertOnNonRoot) /\
  insert emptyRoot "" firstRoute = (emptyRoot, Some errEmptyPattern) /\
  insert emptyRoot "a" firstRoute = (emptyRoot, Some errMustStartWithSlash) /\
  (insert emptyRoot "/a" firstRoute).2 = None.
Proof.
  split; [|split; [|split]].
  - apply (insert_error_cases paramChild "/a" firstRoute). discriminate.
  - apply (insert_error_cases emptyRoot "" firstRoute); reflexivity.
  - apply (insert_error_cases emptyRoot "a" firstRoute);
      [reflexivity | discriminate | intros rest; discriminate].
  - apply (insert_error_cases emptyRoot "/a" firstRoute) with (rest := "a"%string);
      reflexivity.
Defined.

(** C8.  When the scan of find ends on a node [level]: if [level] has a
    child under the terminal key, the route stored there is returned;
    otherwise, if it has a child under ['/'] that has a child under the
    terminal key, that route is returned; otherwise find fails with
    [errRouteNotFound]. *)
Theorem find_resolution (node : Node) (p : string) (level : Node) :
  classify node = NodeRoot -> scan node p = Some (Some level) ->
  (forall terminal, findChild level eof = Some terminal ->
     find node p = Ok (value terminal)) /\
  (findChild level eof = None ->
     forall slash terminal,
       findChild level (rc "/") = Some slash ->
       findChild slash eof = Some terminal ->
       find node p = Ok (value terminal)) /\
  (findChild level eof = None ->
     (forall slash, findChild level (rc "/") = Some slash ->
        findChild slash eof = None) ->
     find node p = Err errRouteNotFound).
Proof.
  intros Hroot Hscan. unfold find. rewrite Hroot, Hscan. simpl. unfold resolve.
  split; [|split].
  - intros terminal ->. reflexivity.
  - intros -> slash terminal -> ->. reflexivity.
  - intros -> Hslash.
    destruct (findChild level (rc "/")) as [slash|]; [|reflexivity].
    rewrite (Hslash slash eq_refl). reflexivity.
Qed.

(** The pattern [/a/] answers the path [/a]. *)
Lemma find_resolution_witness :
  find trailingSlashTrie "/a" = Ok (Some firstRoute).
Proof.
  destruct (find_resolution trailingSlashTrie "/a" trailingSlashLevel
              eq_refl eq_refl) as (_ & H & _).
  exact (H eq_refl _ _ eq_refl eq_refl).
Defined.

(** C9.  Invoking a route calls [wares[n-1](...(wares[0](h)))], where
    [wares] is its middleware list and [h] its handler: with no
    middleware it is [h]; each further middleware wraps what the
    earlier ones built, so the one registered last is outermost and
    runs first. *)
Theorem route_invocation_order (route : Route) (response : ResponseWriter)
    (request : Request) :
  Route_ServeHTTP route response request
  = onion (middleware route) (handler route) (length (middleware route))
      response request /\
  (forall p h, wrapped (mkRoute p h []) = h) /\
  (forall p h wares mw,
     wrapped (mkRoute p h (wares ++ [mw])) = mw (wrapped (mkRoute p h wares))) /\
  Route_ServeHTTP
    (mkRoute "/" (say "handler")
       [announce "registered first"; announce "registered last"])
    [] emptyRequest
  = ["registered last"; "registered first"; "handler"]%string.
Proof.
  split; [|split; [|split]].
  - unfold Route_ServeHTTP, wrapped. rewrite fold_onion. reflexivity.
  - reflexivity.
  - intros p h wares mw. unfold wrapped. simpl. rewrite fold_left_app. reflexivity.
  - reflexivity.
Qed.

Lemma firstRoute_not_secondRoute : firstRoute <> secondRoute.
Proof.
  intros H. apply (f_equal (fun r => handler r [] emptyRequest)) in H.
  discriminate H.
Qed.

(** C2, as the spec words it, fails: after [/a] is registered with
    [firstRoute] and then with [secondRoute], both without error, find
    returns [firstRoute] for [/a], not [secondRoute]. *)
Lemma duplicate_registration_keeps_first :
  exists t1 t2,
    insert emptyRoot "/a" firstRoute = (t1, None) /\
    insert t1 "/a" secondRoute = (t2, None) /\
    find t2 "/a" = Ok (Some firstRoute) /\
    find t2 "/a" <> Ok (Some secondRoute).
Proof.
  eexists. eexists.
  split; [by_evaluation|].
  split; [by_evaluation|].
  assert (H : find twiceRegistered "/a" = Ok (Some firstRoute))
    by (by_evaluation).
  split; [exact H|].
  change (find twiceRegistered "/a" <> Ok (Some secondRoute)).
  rewrite H. intros E.
  apply (f_equal (fun r => match r with Ok (Some x) => x | _ => firstRoute end)) in E.
  exact (firstRoute_not_secondRoute E).
Qed.

(** C2, amended.  For every pattern that starts with ['/'] and routes R1
    then R2 registered under it on the same method trie, both
    insertions return no error, and every later find returns what it
    returned before the second insertion: the terminal of R2 is appended
    behind a child with the same key, where no lookup reaches it, so
    the first registration stays in force. *)
Theorem duplicate_registration_unobservable (t : Node) (rest : string)
    (R1 R2 : Route) :
  classify t = NodeRoot ->
  exists t1 t2,
    insert t (String "/" rest) R1 = (t1, None) /\
    insert t1 (String "/" rest) R2 = (t2, None) /\
    forall p, find t2 p = find t1 p.
Proof.
  intros Hroot.
  set (pattern := String "/" rest).
  set (t1 := insert_walk (String.length pattern) R1 (range pattern) t).
  exists t1, (insert_walk (String.length pattern) R2 (range pattern) t1).
  assert (Hroot1 : classify t1 = NodeRoot)
    by (unfold t1; rewrite insert_walk_classify; exact Hroot).
  split; [apply insert_slash_ok, Hroot|].
  split; [apply insert_slash_ok, Hroot1|].
  intros p. symmetry. apply find_sameLookups.
  - symmetry. apply insert_walk_classify.
  - apply insert_walk_again.
Qed.

Lemma duplicate_registration_unobservable_witness :
  exists t1 t2,
    insert emptyRoot "/a" firstRoute = (t1, None) /\
    insert t1 "/a" secondRoute = (t2, None) /\
    forall p, find t2 p = find t1 p.
Proof.
  apply (duplicate_registration_unobservable emptyRoot "a" firstRoute secondRoute).
  reflexivity.
Defined.

Lemma twiceRegistered_reachable : reachable twiceRegistered.
Proof.
  apply (reachable_insert (insert emptyRoot "/a" firstRoute).1 "/a" secondRoute);
    [|by_evaluation].
  apply (reachable_insert emptyRoot "/a" firstRoute);
    [apply reachable_fresh | by_evaluation].
Qed.

(** C3, as the spec words it, fails: registering [/a] twice leaves the
    ['a'] node with two children under the terminal key. *)
Lemma duplicate_terminal_keys :
  exists t, reachable t /\ ~ siblingKeysUnique everyKey t.
Proof.
  exists twiceRegistered. split; [apply twiceRegistered_reachable|].
  intros H.
  pose proof (siblingKeysUnique_child everyKey _ (rc "/") _ H eq_refl) as H1.
  pose proof (siblingKeysUnique_child everyKey _ (rc "a") _ H1 eq_refl) as H2.
  apply siblingKeysUnique_here in H2. vm_compute in H2.
  change (NoDup [eof; eof]) in H2. rename H2 into Hu.
  apply NoDup_cons in Hu as [Hin _]. apply Hin. left.
Qed.

(** C3, amended.  In every trie that successful inserts build from a
    fresh root, the keys other than the terminal key are pairwise
    distinct among the children of each node.  (Children under the
    terminal key are appended without a search, one per registration
    that ends on the node.) *)
Theorem sibling_keys_distinct (t : Node) :
  reachable t -> siblingKeysUnique properKey t.
Proof.
  induction 1 as [|t pattern v t' _ IH Hins].
  - constructor; simpl; [apply NoDup_nil_2 | constructor].
  - apply insert_ok_walk in Hins. subst t'.
    apply insert_walk_siblingKeysUnique, IH.
Qed.

Lemma sibling_keys_distinct_witness : siblingKeysUnique properKey twiceRegistered.
Proof.
  apply (sibling_keys_distinct twiceRegistered).
  apply (reachable_insert (insert emptyRoot "/a" firstRoute).1 "/a" secondRoute);
    [|by_evaluation].
  apply (reachable_insert emptyRoot "/a" firstRoute);
    [apply reachable_fresh | by_evaluation].
Defined.

(** C7, as the spec words it, fails: [/a] has fewer segments than
    [/a/b], and extraction returns no error, since the pattern holds
    neither [':'] nor ['*'] and nothing is split or counted. *)
Lemma fewer_segments_without_parameters :
  (length (Split "/a" "/") < length (Split "/a/b" "/"))%nat /\
  ParseParameter "/a" "/a/b" = Return "" None.
Proof. split; by_evaluation. Qed.

(** C7, amended.  With [/hello/*] registered for a method, looking up
    [/hello/a/b] returns its route and extraction yields the single pair
    catch = "a/b".  A catch-all in last position after segments that
    are neither parameters nor catch-alls gets the name that follows the
    ['*'], or "catch" when nothing follows, and as value the ['/']-join
    of the path segments from its index on.  Extraction fails with
    [errBadPattern] whenever a segment that starts with ['*'] is not the
    last pattern segment, and, for a pattern that contains [':'] or
    ['*'], whenever the path has fewer segments than the pattern. *)
Theorem catch_all_extraction :
  Forall (fun method =>
    forall h wares,
      (Router_addRoute newRouter method "/hello/*" h wares).2 = None /\
      Router_find (Router_addRoute newRouter method "/hello/*" h wares).1
        method "/hello/a/b" = Ok (Some (mkRoute "/hello/*" h wares))) AllMethod /\
  ParseParameter "/hello/a/b" "/hello/*" = Return "catch:a/b" None /\
  Parameter_Load ∅ "catch:a/b" = {[ "catch"%string := "a/b"%string ]} /\
  (forall matched pattern pre name,
      Split pattern "/" = pre ++ [String "*" name] ->
      Forall plain pre ->
      (length (Split pattern "/") <= length (Split matched "/"))%nat ->
      ParseParameter matched pattern
      = Return ((if String.eqb name "" then "catch" else name) ++ ":"
                ++ Join (drop (length pre) (Split matched "/")) "/")%string None) /\
  (forall matched pattern pre name post,
      Split pattern "/" = pre ++ String "*" name :: post ->
      post <> [] ->
      exists res, ParseParameter matched pattern = Return res (Some errBadPattern)) /\
  (forall matched pattern,
      Contains pattern ":" || Contains pattern "*" = true ->
      (length (Split matched "/") < length (Split pattern "/"))%nat ->
      ParseParameter matched pattern = Return "" (Some errBadPattern)).
Proof.
  split; [|split; [|split; [|split; [|split]]]].
  - unfold AllMethod. repeat constructor; by_evaluation.
  - by_evaluation.
  - by_evaluation.
  - intros matched pattern pre name Hsplit Hpre Hlen.
    assert (Hstar : Contains pattern "*" = true).
    { apply (Split_segment_within pattern (String "*" name)); [|reflexivity].
      rewrite Hsplit. apply elem_of_app. right. left. }
    unfold ParseParameter. rewrite Hstar, orb_true_r.
    destruct (Nat.ltb_spec (length (Split matched "/")) (length (Split pattern "/")));
      [lia|].
    rewrite Hsplit in *. rewrite length_app in Hlen. simpl in Hlen.
    apply parse_loop_catch_all; [exact Hpre | lia].
  - intros matched pattern pre name post Hsplit Hpost.
    assert (Hstar : Contains pattern "*" = true).
    { apply (Split_segment_within pattern (String "*" name)); [|reflexivity].
      rewrite Hsplit. apply elem_of_app. right. left. }
    unfold ParseParameter. rewrite Hstar, orb_true_r.
    destruct (Nat.ltb_spec (length (Split matched "/")) (length (Split pattern "/")));
      [eauto|].
    rewrite Hsplit in *.
    apply parse_loop_star_not_last; [exact Hpost | assumption | reflexivity].
  - intros matched pattern Hcontains Hlen. unfold ParseParameter.
    rewrite Hcontains. apply Nat.ltb_lt in Hlen. rewrite Hlen. reflexivity.
Qed.

Lemma catch_all_extraction_witness :
  ParseParameter "/files/a/b/c" "/files/*rest" = Return "rest:a/b/c" None /\
  (exists res, ParseParameter "/x/y/z" "/*a/b" = Return res (Some errBadPattern)) /\
  ParseParameter "/x" "/:id/" = Return "" (Some errBadPattern).
Proof.
  destruct catch_all_extraction as (_ & _ & _ & Hlast & Hstar & Hfew).
  split; [|split].
  - apply (Hlast "/files/a/b/c" "/files/*rest" [""; "files"] "rest")%string.
    + reflexivity.
    + repeat constructor; discriminate.
    + vm_compute. lia.
  - apply (Hstar "/x/y/z" "/*a/b" [""] "a" ["b"])%string;
      [reflexivity | discriminate].
  - apply (Hfew "/x" "/:id/")%string; [reflexivity | vm_compute; lia].
Defined.

(** C10, as stated, fails in the "if" direction: a value without [':']
    and [','] is extracted and yet not recovered by [Load] when its
    name occurs twice, when its name holds a [':'], or when a later
    value holds a [','] followed by an entry for the same name. *)
Lemma benign_value_not_recovered :
  (ParseParameter "/x/y" "/:id/:id" = Return "id:x,id:y" None /\
   ("id", "x")%string ∈ ParameterPairs "/x/y" "/:id/:id" /\
   benign "x" /\
   Parameter_Load ∅ "id:x,id:y" !! "id"%string = Some "y"%string) /\
  (ParseParameter "/x" "/:a:b" = Return "a:b:x" None /\
   ("a:b", "x")%string ∈ ParameterPairs "/x" "/:a:b" /\
   benign "x" /\
   Parameter_Load ∅ "a:b:x" = ∅) /\
  (ParseParameter "/x/y,a:z" "/:a/:b" = Return "a:x,b:y,a:z" None /\
   ("a", "x")%string ∈ ParameterPairs "/x/y,a:z" "/:a/:b" /\
   benign "x" /\
   Parameter_Load ∅ "a:x,b:y,a:z" !! "a"%string = Some "z"%string).
Proof.
  repeat split; try (by_evaluation).
  - vm_compute. left.
  - vm_compute. left.
  - vm_compute. left.
Qed.

(** C10, amended.  What [ParseParameter] returns is the encoding of the
    pairs it extracted, and [Load] stores only values that hold neither
    [':'] nor [',']: a pair whose value holds one is never recovered.  When the parameter names of the
    pattern are pairwise distinct and hold neither [':'] nor [','],
    every extracted pair is recovered if and only if every extracted
    value holds neither [':'] nor [','].  For the path [/hello/a:b],
    matched by [/hello/*], the entry [catch:a:b] is dropped and the
    handler reads the empty string for [catch]. *)
Theorem flat_encoding_round_trip :
  (forall matched pattern res,
      ParseParameter matched pattern = Return res None ->
      res = encode (ParameterPairs matched pattern) /\
      (forall n v, Parameter_Load ∅ res !! n = Some v -> benign v) /\
      (NoDup (ParameterPairs matched pattern).*1 ->
       Forall benign (ParameterPairs matched pattern).*1 ->
       (Forall (fun p => Parameter_Load ∅ res !! p.1 = Some p.2)
          (ParameterPairs matched pattern)
        <-> Forall benign (ParameterPairs matched pattern).*2))) /\
  (forall h wares,
      Router_find (Router_addRoute newRouter "GET" "/hello/*" h wares).1
        "GET" "/hello/a:b" = Ok (Some (mkRoute "/hello/*" h wares))) /\
  ParseParameter "/hello/a:b" "/hello/*" = Return "catch:a:b" None /\
  GetParameter (Header_Set emptyRequest headerName "catch:a:b") = Some ∅ /\
  Parameter_Get
    (GetParameter (Header_Set emptyRequest headerName "catch:a:b")) "catch"
  = EmptyString.
Proof.
  split; [|repeat split; by_evaluation].
  intros matched pattern res Hparse.
  split; [apply ParseParameter_encode, Hparse|]. split.
  - intros n v. apply Load_values_benign.
  - intros Hnd Hnames.
    pose proof (ParseParameter_encode _ _ _ Hparse) as ->.
    split.
    + intros Hrec. apply Forall_fmap. eapply Forall_impl; [exact Hrec|].
      intros [n v] Hnv. simpl in *. eapply Load_values_benign, Hnv.
    + intros Hvals. apply Forall_forall. intros [n v] Hin. simpl.
      apply Load_encode_recovers; assumption.
Qed.

Lemma flat_encoding_round_trip_witness :
  Parameter_Load ∅ "a:x,b:y" !! "b"%string = Some "y"%string.
Proof.
  destruct flat_encoding_round_trip as (H & _).
  destruct (H "/x/y" "/:a/:b" "a:x,b:y"%string eq_refl) as (_ & _ & Hiff).
  assert (Hnd : NoDup (ParameterPairs "/x/y" "/:a/:b").*1).
  { vm_compute. apply NoDup_cons_2; [|apply NoDup_singleton].
    intros Hin. apply list_elem_of_singleton in Hin. discriminate Hin. }
  assert (Hnames : Forall benign (ParameterPairs "/x/y" "/:a/:b").*1).
  { vm_compute. repeat constructor. }
  assert (Hvals : Forall benign (ParameterPairs "/x/y" "/:a/:b").*2).
  { vm_compute. repeat constructor. }
  pose proof (proj2 (Hiff Hnd Hnames) Hvals) as Hall.
  apply Forall_forall with (x := ("b", "y")%string) in Hall; [exact Hall|].
  vm_compute. right. left.
Defined.

(** * Further properties *)

(** ** The range clause *)

Lemma range_from_index skip idx s i r :
  (i, r) ∈ range_from skip idx s -> (idx <= i < idx + String.length s)%nat.
Proof.
  revert skip idx. induction s as [|a t IH]; intros skip idx; cbn [range_from].
  - intros H. apply elem_of_nil in H. contradiction.
  - cbn [String.length]. destruct skip as [|k].
    + destruct (decodeRune (String a t)) as [r' w].
      intros H. apply elem_of_cons in H as [[= -> ->]|H]; [lia|].
      apply IH in H. lia.
    + intros H. apply IH in H. lia.
Qed.

(** ** ParseParameter never indexes out of range *)

Lemma parse_loop_no_panic p1 s2 p2 : forall k result,
  (k + length p2 <= length p1)%nat ->
  parse_loop p1 s2 k p2 result <> Panic.
Proof.
  induction p2 as [|v rest IH]; intros k result Hk; simpl in *; [discriminate|].
  assert (Hk' : (S k + length rest <= length p1)%nat) by lia.
  destruct v as [|v0 v1]; [apply IH, Hk'|].
  destruct (Ascii.eqb v0 ":").
  - destruct (p1 !! k) as [seg|] eqn:Hseg.
    + destruct (String.length result =? 0)%nat; apply IH, Hk'.
    + apply lookup_ge_None in Hseg. lia.
  - destruct (Ascii.eqb v0 "*"); [|apply IH, Hk'].
    destruct (negb (k =? s2 - 1)%nat); [discriminate|].
    destruct (Nat.ltb_spec (length p1) k); [lia|].
    destruct (String.length _ =? 0)%nat; discriminate.
Qed.

Lemma ParseParameter_no_panic (matched pattern : string) :
  ParseParameter matched pattern <> Panic.
Proof.
  unfold ParseParameter.
  destruct (Contains pattern ":" || Contains pattern "*"); [|discriminate].
  destruct (Nat.ltb_spec (length (Split matched "/")) (length (Split pattern "/")));
    [discriminate|].
  apply parse_loop_no_panic. simpl. lia.
Qed.

(** X1.  [ParseParameter] never panics: the test [s1 < s2] keeps
    [p1[k]] and [p1[k:]] in range for every path and pattern. *)
Theorem ParseParameter_never_panics (matched pattern : string) :
  ParseParameter matched pattern <> Panic.
Proof. exact (ParseParameter_no_panic matched pattern). Qed.

(** ** What ParseParameter extracts *)

Lemma catchAllOnlyLast_tail v rest :
  catchAllOnlyLast (v :: rest) = true -> catchAllOnlyLast rest = true.
Proof.
  destruct rest as [|v' rest']; [reflexivity|].
  cbn [catchAllOnlyLast]. intros H. apply andb_true_iff in H as [_ H]. exact H.
Qed.

Lemma catchAllOnlyLast_head v rest :
  catchAllOnlyLast (v :: rest) = true -> isCatchAll v = true -> rest = [].
Proof.
  destruct rest as [|v' rest']; [reflexivity|].
  cbn [catchAllOnlyLast]. intros H Hv. rewrite Hv in H. discriminate.
Qed.

Lemma tail_drop {A} k (l : list A) : tail (drop k l) = drop (S k) l.
Proof.
  revert l. induction k as [|k IH]; intros l.
  - destruct l; reflexivity.
  - destruct l as [|x l]; [reflexivity|]. simpl. apply IH.
Qed.

Lemma parse_loop_extracted p1 s2 p2 : forall k acc,
  catchAllOnlyLast p2 = true ->
  (k + length p2 = s2)%nat -> (s2 <= length p1)%nat ->
  parse_loop p1 s2 k p2 (encode acc)
  = Return (encode (acc ++ extracted p2 (drop k p1))) None.
Proof.
  induction p2 as [|v rest IH]; intros k acc Hlast Hk Hlen.
  - simpl. rewrite app_nil_r. reflexivity.
  - pose proof (catchAllOnlyLast_tail _ _ Hlast) as Hrest.
    cbn [length] in Hk.
    assert (Hk' : (S k + length rest = s2)%nat) by lia.
    cbn [parse_loop extracted].
    destruct v as [|v0 v1].
    { rewrite tail_drop. apply IH; assumption. }
    destruct (Ascii.eqb v0 ":") eqn:Hcolon.
    + destruct (p1 !! k) as [seg|] eqn:Hseg;
        [|apply lookup_ge_None in Hseg; lia].
      rewrite (drop_S _ _ _ Hseg).
      pose proof (encode_snoc acc (v1, seg)) as Hs. unfold entry in Hs. simpl in Hs.
      change (acc ++ (v1, seg) :: extracted rest (drop (S k) p1))
        with (acc ++ [(v1, seg)] ++ extracted rest (drop (S k) p1)).
      rewrite app_assoc.
      destruct (String.length (encode acc) =? 0)%nat; rewrite <- Hs;
        apply IH; assumption.
    + destruct (Ascii.eqb v0 "*") eqn:Hstar.
      * assert (rest = []) as -> by (apply (catchAllOnlyLast_head _ _ Hlast); exact Hstar).
        simpl in Hk.
        destruct (Nat.eqb_spec k (s2 - 1)); [|lia]. simpl negb. cbn iota.
        destruct (Nat.ltb_spec (length p1) k); [lia|].
        assert (Hname : (if (1 <? String.length (String v0 v1))%nat
                         then v1 else "catch"%string)
                        = if String.eqb v1 "" then "catch"%string else v1)
          by (destruct v1; reflexivity).
        rewrite Hname.
        pose proof (encode_snoc acc
          (if String.eqb v1 "" then "catch"%string else v1, Join (drop k p1) "/")) as Hs.
        unfold entry in Hs. simpl in Hs.
        destruct (String.length (encode acc) =? 0)%nat; rewrite <- Hs; reflexivity.
      * rewrite tail_drop. apply IH; assumption.
Qed.

Lemma plain_segments pattern :
  Contains pattern ":" || Contains pattern "*" = false ->
  Forall plain (Split pattern "/").
Proof.
  intros H. apply orb_false_elim in H as [Hc Hs].
  apply Forall_forall. intros [|c seg] Hin; [exact I|].
  split; intros ->.
  - rewrite (Split_pieces_within _ _ _ ":" Hin) in Hc; [discriminate | reflexivity].
  - rewrite (Split_pieces_within _ _ _ "*" Hin) in Hs; [discriminate | reflexivity].
Qed.

Lemma extracted_plain p2 : forall p1, Forall plain p2 -> extracted p2 p1 = [].
Proof.
  induction p2 as [|v rest IH]; intros p1 Hall; [reflexivity|].
  apply Forall_cons in Hall as [Hv Hrest]. cbn [extracted].
  destruct v as [|v0 name]; [apply IH, Hrest|].
  destruct Hv as [Hc Hs].
  destruct (Ascii.eqb_spec v0 ":"); [contradiction|].
  destruct (Ascii.eqb_spec v0 "*"); [contradiction|].
  apply IH, Hrest.
Qed.

Lemma ParseParameter_extracted (matched pattern : string) :
  catchAllOnlyLast (Split pattern "/") = true ->
  (length (Split pattern "/") <= length (Split matched "/"))%nat ->
  ParseParameter matched pattern
  = Return (encode (extracted (Split pattern "/") (Split matched "/"))) None.
Proof.
  intros Hlast Hlen. unfold ParseParameter.
  destruct (Contains pattern ":" || Contains pattern "*") eqn:Hgate.
  - destruct (Nat.ltb_spec (length (Split matched "/")) (length (Split pattern "/")));
      [lia|].
    apply (parse_loop_extracted _ _ _ 0%nat []); [exact Hlast | reflexivity | exact Hlen].
  - rewrite extracted_plain by (apply plain_segments, Hgate). reflexivity.
Qed.

(** X2.  When no pattern segment but the last starts with ['*'] and
    the path has at least as many segments as the pattern,
    [ParseParameter] returns no error and its result is the
    comma-separated [name:value] list of: for each pattern segment
    [:name], in order, the path segment at the same index; and for a
    final segment [*name], the name (or "catch") with the ['/']-join of
    the path segments from its index on.  Segments of other kinds are
    not compared with the path. *)
Theorem ParseParameter_extracts (matched pattern : string) :
  catchAllOnlyLast (Split pattern "/") = true ->
  (length (Split pattern "/") <= length (Split matched "/"))%nat ->
  ParseParameter matched pattern
  = Return (encode (extracted (Split pattern "/") (Split matched "/"))) None.
Proof. exact (ParseParameter_extracted matched pattern). Qed.

Lemma ParseParameter_extracts_witness :
  ParseParameter "/let/the/bullet/fly/far/away" "/let/:name/bullet/:action/*rest"
  = Return "name:the,action:fly,rest:far/away" None.
Proof.
  apply (ParseParameter_extracts "/let/the/bullet/fly/far/away"
           "/let/:name/bullet/:action/*rest"); [reflexivity | vm_compute; lia].
Defined.

(** ** Load, piece by piece *)

Lemma Split_append s t sep :
  Split (s ++ String sep t)%string sep = Split s sep ++ Split t sep.
Proof.
  induction s as [|c s IH].
  - simpl. rewrite Ascii.eqb_refl. reflexivity.
  - change (String c s ++ String sep t)%string with (String c (s ++ String sep t)).
    cbn [Split]. rewrite IH.
    destruct (Ascii.eqb c sep); [reflexivity|].
    destruct (Split_cons s sep) as (piece & more & ->). reflexivity.
Qed.

(** X3.  Loading two sources joined by a comma is loading the first
    and then the second: entries are applied from left to right, each
    on the map the earlier ones left. *)
Theorem Load_comma (parameter : gmap string string) (a b : string) :
  Parameter_Load parameter (a ++ "," ++ b)
  = Parameter_Load (Parameter_Load parameter a) b.
Proof.
  unfold Parameter_Load.
  change (a ++ "," ++ b)%string with (a ++ String "," b)%string.
  rewrite Split_append. apply fold_left_app.
Qed.

(** ** The router, field by field *)

Ltac case_method m :=
  repeat match goal with
         | |- context [String.eqb m ?c] =>
           destruct (String.eqb_spec m c); [subst m|]
         end.

Lemma Router_find_rootOf r method p :
  Router_find r method p =
  match rootOf r method with
  | Some field => findIn field p
  | None => Err errRouteNotFound
  end.
Proof. unfold Router_find, rootOf. case_method method; reflexivity. Qed.

Lemma rootOf_known r method : is_Some (rootOf r method) <-> method ∈ AllMethod.
Proof.
  unfold rootOf, AllMethod. split.
  - case_method method; intros H; try (repeat constructor; fail).
    destruct H as [? [=]].
  - intros H. repeat (apply elem_of_cons in H as [->|H]; [simpl; eauto|]).
    apply elem_of_nil in H. contradiction.
Qed.

Lemma Router_addRoute_known r method p h wares field :
  rootOf r method = Some field ->
  rootOf (Router_addRoute r method p h wares).1 method
    = Some (insertAt field p (mkRoute p h wares)).1 /\
  (Router_addRoute r method p h wares).2
    = (insertAt field p (mkRoute p h wares)).2.
Proof.
  unfold Router_addRoute, rootOf.
  case_method method; simpl; try discriminate; intros [= <-];
    destruct (insertAt _ p (mkRoute p h wares)); split; reflexivity.
Qed.

Lemma Router_addRoute_unknown r method p h wares :
  rootOf r method = None ->
  Router_addRoute r method p h wares = (r, Some errUnknownMethod).
Proof.
  unfold Router_addRoute, rootOf.
  case_method method; simpl; try discriminate; reflexivity.
Qed.

Lemma Router_addRoute_other r method p h wares method' :
  method' <> method ->
  rootOf (Router_addRoute r method p h wares).1 method' = rootOf r method'.
Proof.
  intros Hne. unfold Router_addRoute.
  case_method method; simpl;
    try (destruct (insertAt _ p (mkRoute p h wares)); simpl);
    unfold rootOf; simpl;
    case_method method'; simpl; try reflexivity; try congruence.
Qed.

Lemma insert_error_kinds node p v :
  (insert node p v).2 = None \/
  (insert node p v).2 = Some errInsertOnNonRoot \/
  (insert node p v).2 = Some errEmptyPattern \/
  (insert node p v).2 = Some errMustStartWithSlash.
Proof.
  unfold insert.
  destruct (negb (Classify_eqb (classify node) NodeRoot)); [auto|].
  destruct (String.eqb p ""); [auto|].
  destruct (negb (firstByteIsSlash p)); auto.
Qed.

Lemma insert_error_unchanged node p v e :
  (insert node p v).2 = Some e -> (insert node p v).1 = node.
Proof.
  unfold insert.
  destruct (negb (Classify_eqb (classify node) NodeRoot)); [reflexivity|].
  destruct (String.eqb p ""); [reflexivity|].
  destruct (negb (firstByteIsSlash p)); [reflexivity | discriminate].
Qed.

Lemma insert_classify node p v :
  classify (insert node p v).1 = classify node.
Proof.
  unfold insert.
  destruct (negb (Classify_eqb (classify node) NodeRoot)); [reflexivity|].
  destruct (String.eqb p ""); [reflexivity|].
  destruct (negb (firstByteIsSlash p)); [reflexivity|].
  apply insert_walk_classify.
Qed.

Lemma insertAt_fst field p v :
  (insertAt field p v).1 = Some (insert (from_option id emptyRoot field) p v).1.
Proof. unfold insertAt. destruct (insert _ p v). reflexivity. Qed.

Lemma insertAt_snd field p v :
  (insertAt field p v).2 = (insert (from_option id emptyRoot field) p v).2.
Proof. unfold insertAt. destruct (insert _ p v). reflexivity. Qed.

Lemma find_emptyRoot p : find emptyRoot p = Err errRouteNotFound.
Proof.
  unfold find, scan. simpl.
  destruct (range p) as [|[k ch] chars]; reflexivity.
Qed.

Lemma findIn_fresh field p :
  findIn (Some (from_option id emptyRoot field)) p = findIn field p.
Proof. destruct field; [reflexivity | apply find_emptyRoot]. Qed.

(** X4.  [addRoute] answers [errUnknownMethod] exactly for the methods
    outside [AllMethod] (the comparison is by exact spelling, so "get"
    is unknown), and it then leaves the router as it was. *)
Theorem addRoute_unknown_method (r : Router) (method p : string)
    (h : RouteHandler) (wares : list Middleware) :
  ((Router_addRoute r method p h wares).2 = Some errUnknownMethod
   <-> method ∉ AllMethod) /\
  (method ∉ AllMethod -> (Router_addRoute r method p h wares).1 = r).
Proof.
  destruct (rootOf r method) as [field|] eqn:Hroot.
  - assert (Hin : method ∈ AllMethod) by (apply (rootOf_known r); eauto).
    destruct (Router_addRoute_known r method p h wares field Hroot) as [_ He].
    split; [|intros Hout; contradiction].
    rewrite He, insertAt_snd. split; [|intros Hout; contradiction].
    intros Hu.
    destruct (insert_error_kinds (from_option id emptyRoot field) p (mkRoute p h wares))
      as [H|[H|[H|H]]]; rewrite H in Hu; discriminate.
  - assert (Hout : method ∉ AllMethod).
    { intros Hin. apply (rootOf_known r) in Hin as [f Hf]. congruence. }
    rewrite (Router_addRoute_unknown r method p h wares Hroot). simpl. tauto.
Qed.

Lemma addRoute_unknown_method_witness :
  Router_addRoute newRouter "get" "/a" (say "a") []
  = (newRouter, Some errUnknownMethod).
Proof.
  destruct (addRoute_unknown_method newRouter "get" "/a" (say "a") []) as [Hiff Hsame].
  assert (Hout : "get"%string ∉ AllMethod).
  { intros Hin. unfold AllMethod in Hin.
    repeat (apply elem_of_cons in Hin as [Hin|Hin]; [discriminate Hin|]).
    apply elem_of_nil in Hin. exact Hin. }
  rewrite (surjective_pairing (Router_addRoute _ _ _ _ _)).
  rewrite (Hsame Hout), (proj2 Hiff Hout). reflexivity.
Defined.

Lemma Router_find_other_method (r : Router) (method method' p q : string)
    (h : RouteHandler) (wares : list Middleware) :
  method' <> method ->
  Router_find (Router_addRoute r method p h wares).1 method' q
  = Router_find r method' q.
Proof.
  intros Hne. rewrite !Router_find_rootOf.
  rewrite Router_addRoute_other by exact Hne. reflexivity.
Qed.

(** X5.  Registering under one method changes no lookup under another:
    each method has a trie of its own. *)
Theorem addRoute_other_method (r : Router) (method method' p q : string)
    (h : RouteHandler) (wares : list Middleware) :
  method' <> method ->
  Router_find (Router_addRoute r method p h wares).1 method' q
  = Router_find r method' q.
Proof. exact (Router_find_other_method r method method' p q h wares). Qed.

Lemma addRoute_other_method_witness :
  Router_find (Router_addRoute newRouter "POST" "/a" (say "a") []).1 "GET" "/a"
  = Router_find newRouter "GET" "/a".
Proof.
  apply (addRoute_other_method newRouter "POST" "GET" "/a" "/a" (say "a") []).
  discriminate.
Defined.

(** X6.  A registration that returns an error changes no lookup, for
    any method and path.  (It may still allocate the empty root of its
    method, which finds nothing.) *)
Theorem addRoute_error_unobservable (r : Router) (method p : string)
    (h : RouteHandler) (wares : list Middleware) (e : error) :
  (Router_addRoute r method p h wares).2 = Some e ->
  forall method' q,
    Router_find (Router_addRoute r method p h wares).1 method' q
    = Router_find r method' q.
Proof.
  intros He method' q.
  destruct (String.eq_dec method' method) as [->|Hne];
    [|apply Router_find_other_method; exact Hne].
  rewrite !Router_find_rootOf.
  destruct (rootOf r method) as [field|] eqn:Hroot.
  - destruct (Router_addRoute_known r method p h wares field Hroot) as [Hf Hs].
    rewrite Hf, insertAt_fst. rewrite Hs, insertAt_snd in He.
    rewrite (insert_error_unchanged _ _ _ _ He). apply findIn_fresh.
  - rewrite (Router_addRoute_unknown r method p h wares Hroot). simpl.
    rewrite Hroot. reflexivity.
Qed.

Lemma addRoute_error_unobservable_witness :
  Router_find (Router_addRoute newRouter "GET" "a" (say "a") []).1 "GET" "/a"
  = Router_find newRouter "GET" "/a".
Proof.
  apply (addRoute_error_unobservable newRouter "GET" "a" (say "a") []
           errMustStartWithSlash).
  reflexivity.
Defined.

(** ** Routers built by addRoute *)

Lemma routerBuilt_roots r :
  routerBuilt r ->
  forall method n, rootOf r method = Some (Some n) -> classify n = NodeRoot.
Proof.
  induction 1 as [|r method p h wares _ IH]; intros method' n Hn.
  - unfold rootOf, newRouter in Hn. simpl in Hn.
    revert Hn. case_method method'; discriminate.
  - destruct (String.eq_dec method' method) as [->|Hne].
    + destruct (rootOf r method) as [field|] eqn:Hroot.
      * destruct (Router_addRoute_known r method p h wares field Hroot) as [Hf _].
        rewrite Hf, insertAt_fst in Hn. injection Hn as <-.
        rewrite insert_classify. destruct field as [m|]; [|reflexivity].
        apply (IH method). exact Hroot.
      * rewrite (Router_addRoute_unknown r method p h wares Hroot) in Hn.
        simpl in Hn. congruence.
    + rewrite Router_addRoute_other in Hn by exact Hne. eapply IH, Hn.
Qed.

Lemma find_error_kinds n p e :
  classify n = NodeRoot -> find n p = Err e -> e = errRouteNotFound.
Proof.
  intros Hroot. unfold find. rewrite Hroot. simpl.
  destruct (scan n p) as [[level|]|]; try (intros [= <-]; reflexivity).
  unfold resolve.
  destruct (findChild level eof); [discriminate|].
  destruct (findChild level (rc "/")) as [slash|]; [|intros [= <-]; reflexivity].
  destruct (findChild slash eof); [discriminate | intros [= <-]; reflexivity].
Qed.

Lemma Router_find_built (r : Router) (method p : string) :
  routerBuilt r ->
  (exists v, Router_find r method p = Ok v) \/
  Router_find r method p = Err errRouteNotFound.
Proof.
  intros Hb. rewrite Router_find_rootOf.
  destruct (rootOf r method) as [[n|]|] eqn:Hroot; simpl; auto.
  destruct (find n p) as [v|e] eqn:Hf; [eauto|]. right. f_equal.
  eapply find_error_kinds; [|exact Hf].
  eapply routerBuilt_roots; eassumption.
Qed.

(** X7.  On a router built by [addRoute] calls from a new one, a lookup
    either succeeds or fails with [errRouteNotFound]: every trie root
    is a root node, so "non Node search" never comes back. *)
Theorem Router_find_outcomes (r : Router) (method p : string) :
  routerBuilt r ->
  (exists v, Router_find r method p = Ok v) \/
  Router_find r method p = Err errRouteNotFound.
Proof. exact (Router_find_built r method p). Qed.

Lemma Router_find_outcomes_witness :
  (exists v,
     Router_find (Router_addRoute newRouter "GET" "/a" (say "a") []).1 "GET" "/b"
     = Ok v) \/
  Router_find (Router_addRoute newRouter "GET" "/a" (say "a") []).1 "GET" "/b"
  = Err errRouteNotFound.
Proof.
  apply (Router_find_outcomes
           (Router_addRoute newRouter "GET" "/a" (say "a") []).1 "GET" "/b").
  apply routerBuilt_addRoute, routerBuilt_new.
Defined.

(** ** ASCII code points come from single bytes *)

Lemma lor_ge_r a b : 0 <= a -> 0 <= b -> b <= Z.lor a b.
Proof.
  intros Ha Hb. pose proof (Z.sub_lor_l_same_r a b) as H.
  assert (0 <= Z.land a (Z.lnot b)) by (apply Z.land_nonneg; left; exact Ha).
  lia.
Qed.

Lemma lor_ge_l a b : 0 <= a -> 0 <= b -> a <= Z.lor a b.
Proof. intros Ha Hb. rewrite Z.lor_comm. apply lor_ge_r; assumption. Qed.

Lemma byte_of_range a : 0 <= byte_of a < 256.
Proof.
  unfold byte_of. pose proof (N_ascii_bounded a). lia.
Qed.

Lemma land_mod_64 b : 0 <= Z.land b 63 /\ Z.land b 63 = b mod 64.
Proof.
  change 63 with (Z.ones 6). rewrite Z.land_ones by lia.
  split; [apply Z.mod_pos_bound; lia | reflexivity].
Qed.

(** A decoded sequence of two or more bytes is at least 0x80. *)
Lemma decodeRune_ascii a t r w :
  decodeRune (String a t) = (r, w) -> r < 128 -> r = byte_of a /\ w = 1%nat.
Proof.
  unfold decodeRune. pose proof (byte_of_range a) as Hb0.
  set (b0 := byte_of a) in *.
  destruct (Z.ltb_spec b0 128); [intros [= <- <-]; auto|].
  unfold RuneError.
  destruct ((194 <=? b0) && (b0 <=? 223)) eqn:H2.
  { apply andb_true_iff in H2 as [Hlo%Z.leb_le Hhi%Z.leb_le].
    destruct t as [|a1 t1]; [intros [= <- _]; lia|].
    destruct (continuation (byte_of a1)); [|intros [= <- _]; lia].
    intros [= <- _] Hr. exfalso.
    pose proof (land_mod_64 (byte_of a1)) as [Hm _].
    assert (Hs : 128 <= Z.shiftl (Z.land b0 31) 6).
    { rewrite Z.shiftl_mul_pow2 by lia. change 31 with (Z.ones 5).
      rewrite Z.land_ones by lia. change (2 ^ 6) with 64. change (2 ^ 5) with 32.
      Z.div_mod_to_equations. lia. }
    pose proof (lor_ge_l (Z.shiftl (Z.land b0 31) 6) (Z.land (byte_of a1) 63)).
    lia. }
  destruct ((224 <=? b0) && (b0 <=? 239)) eqn:H3.
  { apply andb_true_iff in H3 as [Hlo%Z.leb_le Hhi%Z.leb_le].
    destruct t as [|a1 [|a2 t2]]; try (intros [= <- _]; lia).
    destruct (_ && _ && _) eqn:Hc; [|intros [= <- _]; lia].
    apply andb_true_iff in Hc as [Hc _].
    apply andb_true_iff in Hc as [Hl1%Z.leb_le Hh1%Z.leb_le].
    intros [= <- _] Hr. exfalso.
    pose proof (land_mod_64 (byte_of a1)) as [Hm1 Hm1'].
    pose proof (land_mod_64 (byte_of a2)) as [Hm2 _].
    pose proof (byte_of_range a1) as Hb1.
    set (hi := Z.shiftl (Z.land b0 15) 12) in *.
    set (mid := Z.shiftl (Z.land (byte_of a1) 63) 6) in *.
    assert (Hhi0 : 0 <= hi).
    { unfold hi. rewrite Z.shiftl_mul_pow2 by lia. change 15 with (Z.ones 4).
      rewrite Z.land_ones by lia. Z.div_mod_to_equations. lia. }
    assert (Hmid0 : 0 <= mid).
    { unfold mid. rewrite Z.shiftl_mul_pow2 by lia. lia. }
    assert (Hbig : 128 <= hi \/ 128 <= mid).
    { unfold hi, mid. rewrite !Z.shiftl_mul_pow2 by lia. rewrite Hm1'.
      change 15 with (Z.ones 4). rewrite Z.land_ones by lia.
      change (2 ^ 12) with 4096. change (2 ^ 6) with 64. change (2 ^ 4) with 16.
      destruct (Z.eqb_spec b0 224); destruct (Z.eqb_spec b0 237);
        Z.div_mod_to_equations; lia. }
    pose proof (lor_ge_l mid (Z.land (byte_of a2) 63) Hmid0 Hm2).
    assert (0 <= Z.lor mid (Z.land (byte_of a2) 63)) by lia.
    pose proof (lor_ge_l hi (Z.lor mid (Z.land (byte_of a2) 63)) Hhi0).
    pose proof (lor_ge_r hi (Z.lor mid (Z.land (byte_of a2) 63)) Hhi0).
    lia. }
  destruct ((240 <=? b0) && (b0 <=? 244)) eqn:H4; [|intros [= <- _]; lia].
  apply andb_true_iff in H4 as [Hlo%Z.leb_le Hhi%Z.leb_le].
  destruct t as [|a1 [|a2 [|a3 t3]]]; try (intros [= <- _]; lia).
  destruct (_ && _ && _ && _) eqn:Hc; [|intros [= <- _]; lia].
  apply andb_true_iff in Hc as [Hc _].
  apply andb_true_iff in Hc as [Hc _].
  apply andb_true_iff in Hc as [Hl1%Z.leb_le Hh1%Z.leb_le].
  intros [= <- _] Hr. exfalso.
  pose proof (land_mod_64 (byte_of a1)) as [Hm1 Hm1'].
  pose proof (land_mod_64 (byte_of a2)) as [Hm2 _].
  pose proof (land_mod_64 (byte_of a3)) as [Hm3 _].
  pose proof (byte_of_range a1) as Hb1.
  set (hi := Z.shiftl (Z.land b0 7) 18) in *.
  set (mid := Z.shiftl (Z.land (byte_of a1) 63) 12) in *.
  set (low := Z.lor (Z.shiftl (Z.land (byte_of a2) 63) 6) (Z.land (byte_of a3) 63)) in *.
  assert (Hhi0 : 0 <= hi).
  { unfold hi. rewrite Z.shiftl_mul_pow2 by lia. change 7 with (Z.ones 3).
    rewrite Z.land_ones by lia. Z.div_mod_to_equations. lia. }
  assert (Hmid0 : 0 <= mid).
  { unfold mid. rewrite Z.shiftl_mul_pow2 by lia. lia. }
  assert (Hlow0 : 0 <= low).
  { unfold low. apply Z.lor_nonneg. split; [|exact Hm3].
    rewrite Z.shiftl_mul_pow2 by lia. lia. }
  assert (Hbig : 128 <= hi \/ 128 <= mid).
  { unfold hi, mid. rewrite !Z.shiftl_mul_pow2 by lia. rewrite Hm1'.
    change 7 with (Z.ones 3). rewrite Z.land_ones by lia.
    change (2 ^ 18) with 262144. change (2 ^ 12) with 4096. change (2 ^ 3) with 8.
    destruct (Z.eqb_spec b0 240); destruct (Z.eqb_spec b0 244);
      Z.div_mod_to_equations; lia. }
  pose proof (lor_ge_l mid low Hmid0 Hlow0).
  assert (0 <= Z.lor mid low) by lia.
  pose proof (lor_ge_l hi (Z.lor mid low) Hhi0).
  pose proof (lor_ge_r hi (Z.lor mid low) Hhi0).
  lia.
Qed.

Lemma byte_of_inj a b : byte_of a = byte_of b -> a = b.
Proof.
  unfold byte_of. intros H. apply N2Z.inj in H.
  rewrite <- (ascii_N_embedding a), <- (ascii_N_embedding b), H. reflexivity.
Qed.

Lemma range_from_ascii skip idx s i r :
  (i, r) ∈ range_from skip idx s -> r < 128 ->
  exists a, r = byte_of a /\ Contains s a = true.
Proof.
  revert skip idx. induction s as [|a t IH]; intros skip idx; cbn [range_from].
  - intros H. apply elem_of_nil in H. contradiction.
  - assert (Htail : forall skip' idx',
              (i, r) ∈ range_from skip' idx' t -> r < 128 ->
              exists a', r = byte_of a' /\ Contains (String a t) a' = true).
    { intros skip' idx' Hin Hr. destruct (IH _ _ Hin Hr) as (a' & -> & Hc).
      exists a'. split; [reflexivity|]. simpl. rewrite Hc. apply orb_true_r. }
    destruct skip as [|k]; [|apply Htail].
    destruct (decodeRune (String a t)) as [r' w] eqn:Hd.
    intros H Hr. apply elem_of_cons in H as [[= -> ->]|H]; [|eapply Htail; eassumption].
    destruct (decodeRune_ascii _ _ _ _ Hd Hr) as [-> _].
    exists a. split; [reflexivity|]. simpl. rewrite Ascii.eqb_refl. reflexivity.
Qed.

(** A string without the byte [a] has no code point [byte_of a],
    for a byte below 0x80. *)
Lemma range_without_byte s a :
  byte_of a < 128 -> Contains s a = false ->
  Forall (fun ir => ir.2 <> byte_of a) (range s).
Proof.
  intros Ha Hc. apply Forall_forall. intros [i r] Hin Hr. simpl in Hr. subst r.
  destruct (range_from_ascii _ _ _ _ _ Hin Ha) as (a' & Heq & Hc').
  apply byte_of_inj in Heq. subst a'. congruence.
Qed.

Lemma range_indices s :
  Forall (fun ir => (ir.1 < String.length s)%nat) (range s).
Proof.
  apply Forall_forall. intros [i r] Hin.
  apply range_from_index in Hin. simpl. lia.
Qed.

(** ** find returns what insert stored *)

Lemma stores_findChild n k c r :
  findChild n k = Some c -> stores c r -> stores n r.
Proof.
  intros Hc Hr. eapply stores_below; [|exact Hr].
  eapply firstWithKey_elem, Hc.
Qed.

Lemma find_step_child len level isParam k ch :
  match find_step len level isParam k ch with
  | Descend c _ | Break c => exists k', findChild level k' = Some c
  | Stay | Miss => True
  end.
Proof.
  unfold find_step.
  destruct (isParam && (k <? len)%nat && negb (ch =? rc "/")); [exact I|].
  destruct (findChild level (rc ":")) eqn:Hp; [eauto|].
  destruct (findChild level (rc "*")) eqn:Hs; [eauto|].
  destruct (findChild level ch) eqn:Hc; [eauto | exact I].
Qed.

Lemma find_walk_stores len chars : forall level isParam e r,
  find_walk len chars level isParam = Some e -> stores e r -> stores level r.
Proof.
  induction chars as [|[k ch] rest IH]; intros level isParam e r; simpl.
  - intros [= <-]. auto.
  - pose proof (find_step_child len level isParam k ch) as Hc.
    destruct (find_step len level isParam k ch) as [|c p|c|].
    + apply IH.
    + destruct Hc as [k' Hk']. intros Hw Hr.
      eapply stores_findChild; [exact Hk' | eapply IH; eassumption].
    + destruct Hc as [k' Hk']. intros [= <-] Hr.
      eapply stores_findChild; eassumption.
    + discriminate.
Qed.

Lemma resolve_stores level r : resolve level = Ok (Some r) -> stores level r.
Proof.
  unfold resolve.
  destruct (findChild level eof) as [e|] eqn:He.
  - intros [= Hv]. eapply stores_findChild; [exact He | apply stores_here, Hv].
  - destruct (findChild level (rc "/")) as [slash|] eqn:Hs; [|discriminate].
    destruct (findChild slash eof) as [e|] eqn:He'; [|discriminate].
    intros [= Hv]. eapply stores_findChild; [exact Hs|].
    eapply stores_findChild; [exact He' | apply stores_here, Hv].
Qed.

Lemma find_stores t p r : find t p = Ok (Some r) -> stores t r.
Proof.
  unfold find, scan.
  destruct (negb (Classify_eqb (classify t) NodeRoot)); [discriminate|].
  destruct (range p) as [|c chars]; [discriminate|].
  destruct (find_walk (String.length p) (c :: chars) t false) as [level|] eqn:Hw;
    [|discriminate].
  intros Hr. eapply find_walk_stores; [exact Hw | apply resolve_stores, Hr].
Qed.

Lemma replaceFirst_elem k data l c :
  c ∈ replaceFirst k data l -> c = data \/ c ∈ l.
Proof.
  induction l as [|d l IH]; simpl; [intros H; apply elem_of_nil in H; contradiction|].
  destruct (key d =? k).
  - intros H. apply elem_of_cons in H as [->|H]; [auto | right; right; exact H].
  - intros H. apply elem_of_cons in H as [->|H]; [right; left|].
    destruct (IH H); [auto | right; right; assumption].
Qed.

Lemma stores_leaf k v cl r : stores (newNode k v cl) r -> v = Some r.
Proof.
  inversion 1 as [n r' Hv|n c r' Hc _]; subst; [exact Hv|].
  simpl in Hc. apply elem_of_nil in Hc. contradiction.
Qed.

Lemma insert_walk_stores len v chars : forall level r,
  stores (insert_walk len v chars level) r -> r = v \/ stores level r.
Proof.
  induction chars as [|[index character] rest IH]; intros level r; simpl.
  - inversion 1 as [n r' Hv|n c r' Hc Hr]; subst; simpl in *.
    + right. apply stores_here, Hv.
    + apply elem_of_app in Hc as [Hc|Hc].
      * right. eapply stores_below; eassumption.
      * apply list_elem_of_singleton in Hc. subst c.
        apply stores_leaf in Hr. left. congruence.
  - destruct (_ && _ && _); [apply IH|].
    destruct (findChild level character) as [child|] eqn:Hchild.
    + inversion 1 as [n r' Hv|n c r' Hc Hr]; subst; simpl in *.
      * right. apply stores_here, Hv.
      * apply replaceFirst_elem in Hc as [->|Hc].
        -- destruct (IH _ _ Hr) as [->|Hr']; [auto|].
           right. eapply stores_findChild; eassumption.
        -- right. eapply stores_below; eassumption.
    + inversion 1 as [n r' Hv|n c r' Hc Hr]; subst; simpl in *.
      * right. apply stores_here, Hv.
      * apply elem_of_app in Hc as [Hc|Hc].
        -- right. eapply stores_below; eassumption.
        -- apply list_elem_of_singleton in Hc. subst c.
           destruct (IH _ _ Hr) as [->|Hr']; [auto|].
           apply stores_leaf in Hr'. discriminate.
Qed.

Lemma built_stores t log r : built t log -> stores t r -> r ∈ log.*2.
Proof.
  induction 1 as [|t log pattern v t' _ IH Hins]; intros Hr.
  - apply (stores_leaf 0 None [NodeRoot]) in Hr. discriminate.
  - apply insert_ok_walk in Hins. subst t'.
    apply insert_walk_stores in Hr as [->|Hr]; [left | right; auto].
Qed.

(** X8.  find never invents a route: on a trie made by successful
    inserts from a fresh root, a route that find returns is one of the
    routes that were inserted. *)
Theorem find_returns_registered (t : Node) (log : list (string * Route))
    (p : string) (r : Route) :
  built t log -> find t p = Ok (Some r) -> r ∈ log.*2.
Proof.
  intros Hb Hf. eapply built_stores; [exact Hb | exact (find_stores t p r Hf)].
Qed.

Lemma find_returns_registered_witness :
  firstRoute ∈ [("/a"%string, secondRoute); ("/a"%string, firstRoute)].*2.
Proof.
  apply (find_returns_registered twiceRegistered
           [("/a"%string, secondRoute); ("/a"%string, firstRoute)] "/a" firstRoute).
  - apply (built_insert (insert emptyRoot "/a" firstRoute).1
             [("/a"%string, firstRoute)] "/a" secondRoute); [|by_evaluation].
    apply (built_insert emptyRoot [] "/a" firstRoute);
      [apply built_fresh | by_evaluation].
  - by_evaluation.
Defined.

(** ** Nil routes *)

Lemma sentinelsCarry_findChild n k c :
  sentinelsCarry n -> findChild n k = Some c -> sentinelsCarry c.
Proof.
  intros [m _ Hall] Hc. apply firstWithKey_elem in Hc.
  rewrite Forall_forall in Hall. auto.
Qed.

Lemma sentinelsCarry_leaf k v cl : sentinelsCarry (newNode k v cl).
Proof.
  constructor; simpl; [|constructor].
  intros c Hc. apply elem_of_nil in Hc. contradiction.
Qed.

Lemma insert_walk_sentinelsCarry len v chars : forall level,
  Forall (fun ir => ir.2 <> eof) chars ->
  sentinelsCarry level -> sentinelsCarry (insert_walk len v chars level).
Proof.
  induction chars as [|[index character] rest IH]; intros level Hchars Hl; simpl.
  - destruct Hl as [level Hv Hall]. constructor; simpl.
    + intros c Hc Hk. apply elem_of_app in Hc as [Hc|Hc]; [auto|].
      apply list_elem_of_singleton in Hc. subst c. discriminate.
    + apply Forall_app. split; [exact Hall|].
      constructor; [apply sentinelsCarry_leaf | constructor].
  - apply Forall_cons in Hchars as [Hch Hrest]. simpl in Hch.
    destruct (_ && _ && _); [apply IH; assumption|].
    destruct (findChild level character) as [child|] eqn:Hchild.
    + pose proof (sentinelsCarry_findChild _ _ _ Hl Hchild) as Hc1.
      pose proof (firstWithKey_key _ _ _ Hchild) as Hkey.
      destruct Hl as [level Hv Hall]. constructor; simpl.
      * intros c Hc Hk. apply replaceFirst_elem in Hc as [->|Hc]; [|auto].
        rewrite insert_walk_key, Hkey in Hk. contradiction.
      * apply replaceFirst_Forall; [exact Hall | apply IH; assumption].
    + destruct Hl as [level Hv Hall]. constructor; simpl.
      * intros c Hc Hk. apply elem_of_app in Hc as [Hc|Hc]; [auto|].
        apply list_elem_of_singleton in Hc. subst c.
        rewrite insert_walk_key in Hk. simpl in Hk. contradiction.
      * apply Forall_app. split; [exact Hall|].
        constructor; [apply IH; [exact Hrest | apply sentinelsCarry_leaf] | constructor].
Qed.

Lemma nulFree_runes s : nulFree s -> Forall (fun ir => ir.2 <> eof) (range s).
Proof.
  intros H. apply (range_without_byte s "000"); [reflexivity | exact H].
Qed.

Lemma built_sentinelsCarry t log :
  built t log -> Forall (fun pr => nulFree pr.1) log -> sentinelsCarry t.
Proof.
  induction 1 as [|t log pattern v t' _ IH Hins]; intros Hlog.
  - apply (sentinelsCarry_leaf 0 None [NodeRoot]).
  - apply Forall_cons in Hlog as [Hp Hlog]. simpl in Hp.
    apply insert_ok_walk in Hins. subst t'.
    apply insert_walk_sentinelsCarry; [apply nulFree_runes, Hp | apply IH, Hlog].
Qed.

Lemma find_walk_sentinelsCarry len chars : forall level isParam e,
  sentinelsCarry level -> find_walk len chars level isParam = Some e ->
  sentinelsCarry e.
Proof.
  induction chars as [|[k ch] rest IH]; intros level isParam e Hl; simpl.
  - intros [= <-]. exact Hl.
  - pose proof (find_step_child len level isParam k ch) as Hc.
    destruct (find_step len level isParam k ch) as [|c p|c|].
    + apply IH, Hl.
    + destruct Hc as [k' Hk']. apply IH. eapply sentinelsCarry_findChild; eassumption.
    + destruct Hc as [k' Hk']. intros [= <-].
      eapply sentinelsCarry_findChild; eassumption.
    + discriminate.
Qed.

Lemma sentinelsCarry_terminal n e :
  sentinelsCarry n -> findChild n eof = Some e -> value e <> None.
Proof.
  intros [m Hv _] He. apply (Hv e).
  - eapply firstWithKey_elem, He.
  - eapply firstWithKey_key, He.
Qed.

Lemma find_not_nil t p :
  sentinelsCarry t -> find t p <> Ok None.
Proof.
  intros Ht. unfold find, scan.
  destruct (negb (Classify_eqb (classify t) NodeRoot)); [discriminate|].
  destruct (range p) as [|c chars]; [discriminate|].
  destruct (find_walk (String.length p) (c :: chars) t false) as [level|] eqn:Hw;
    [|discriminate].
  pose proof (find_walk_sentinelsCarry _ _ _ _ _ Ht Hw) as Hl.
  unfold resolve.
  destruct (findChild level eof) as [e|] eqn:He.
  - pose proof (sentinelsCarry_terminal _ _ Hl He). congruence.
  - destruct (findChild level (rc "/")) as [slash|] eqn:Hs; [|discriminate].
    destruct (findChild slash eof) as [e|] eqn:He'; [|discriminate].
    pose proof (sentinelsCarry_terminal _ _
                  (sentinelsCarry_findChild _ _ _ Hl Hs) He'). congruence.
Qed.

(** X9.  When no registered pattern holds a NUL byte, find never
    returns a nil route with a nil error: a successful lookup yields
    one of the registered routes. *)
Theorem find_never_nil (t : Node) (log : list (string * Route)) (p : string)
    (o : option Route) :
  built t log -> Forall (fun pr => nulFree pr.1) log ->
  find t p = Ok o -> exists r, o = Some r /\ r ∈ log.*2.
Proof.
  intros Hb Hlog Hf. destruct o as [r|].
  - exists r. split; [reflexivity|].
    eapply built_stores; [exact Hb | exact (find_stores t p r Hf)].
  - exfalso. eapply find_not_nil; [|exact Hf].
    eapply built_sentinelsCarry; eassumption.
Qed.

Lemma find_never_nil_witness :
  exists r, Some firstRoute = Some r /\ r ∈ [("/a/"%string, firstRoute)].*2.
Proof.
  apply (find_never_nil trailingSlashTrie [("/a/"%string, firstRoute)] "/a"
           (Some firstRoute)).
  - apply (built_insert emptyRoot [] "/a/" firstRoute);
      [apply built_fresh | by_evaluation].
  - repeat constructor.
  - by_evaluation.
Defined.

(** ** Paths that a pattern generates *)

Lemma insert_walk_skip len v pn pp level :
  classify level = nodeParam ->
  Forall (fun ir => (ir.1 < len)%nat /\ ir.2 <> rc "/") pn ->
  insert_walk len v (pn ++ pp) level = insert_walk len v pp level.
Proof.
  intros Hcl. induction 1 as [|[i r] pn [Hi Hr] _ IH]; [reflexivity|].
  simpl in *. rewrite Hcl. apply Nat.ltb_lt in Hi. rewrite Hi.
  destruct (Z.eqb_spec r (rc "/")); [contradiction|]. simpl. exact IH.
Qed.

Lemma find_walk_stay len qn qq level :
  Forall (fun ir => (ir.1 < len)%nat /\ ir.2 <> rc "/") qn ->
  find_walk len (qn ++ qq) level true = find_walk len qq level true.
Proof.
  induction 1 as [|[i r] qn [Hi Hr] _ IH]; [reflexivity|].
  simpl in *. unfold find_step. apply Nat.ltb_lt in Hi. rewrite Hi.
  destruct (Z.eqb_spec r (rc "/")); [contradiction|]. simpl. exact IH.
Qed.

Lemma segment_chars len (cs : list (nat * rune)) (name : list rune) :
  cs.*2 = name -> Forall (fun ir => (ir.1 < len)%nat) cs -> rc "/" ∉ name ->
  Forall (fun ir => (ir.1 < len)%nat /\ ir.2 <> rc "/") cs.
Proof.
  intros <- Hidx Hno. apply Forall_forall. intros [i r] Hin.
  rewrite Forall_forall in Hidx. split; [apply (Hidx _ Hin)|].
  simpl. intros ->. apply Hno. apply list_elem_of_fmap. exists (i, rc "/"). auto.
Qed.

Lemma findChild_only_child L c k :
  children L = [] ->
  findChild (attach L c) k = if key c =? k then Some c else None.
Proof. intros HL. unfold findChild. simpl. rewrite HL. reflexivity. Qed.

Lemma walk_generated ps qs :
  generates ps qs ->
  forall len1 len2 v (pcs qcs : list (nat * rune)) L isParam,
    pcs.*2 = ps -> qcs.*2 = qs ->
    Forall (fun ir => (ir.1 < len1)%nat) pcs ->
    Forall (fun ir => (ir.1 < len2)%nat) qcs ->
    children L = [] ->
    (classify L = nodeParam \/ isParam = true -> startsSegment ps) ->
    exists e,
      find_walk len2 qcs (insert_walk len1 v pcs L) isParam = Some e /\
      findChild e eof = Some (terminalOf v).
Proof.
  induction 1 as [|r ps qs Hcolon Hstar _ IH
                  |name ps val qs Hname Hval Hvalno Hseg _ IH
                  |qs Hqs];
    intros len1 len2 v pcs qcs L isParam Hps Hqs' Hpi Hqi HL Hstart.
  - apply fmap_nil_inv in Hps. apply fmap_nil_inv in Hqs'. subst. simpl.
    eexists. split; [reflexivity|].
    unfold branch. rewrite findChild_only_child by exact HL. reflexivity.
  - apply fmap_cons_inv in Hps as ([i r'] & pcs' & Hr & Hps & ->).
    apply fmap_cons_inv in Hqs' as ([j r''] & qcs' & Hr' & Hqs' & ->).
    simpl in Hr, Hr'. subst r' r'' ps qs.
    apply Forall_cons in Hpi as [_ Hpi]. apply Forall_cons in Hqi as [_ Hqi].
    assert (Hfree : r = rc "/" \/ (classify L <> nodeParam /\ isParam = false)).
    { destruct (Z.eq_dec r (rc "/")) as [|Hne]; [auto|]. right. split.
      - intros Hc. apply Hne. apply (Hstart (or_introl Hc)).
      - destruct isParam; [|reflexivity]. destruct Hne. apply (Hstart (or_intror eq_refl)). }
    cbn [insert_walk].
    assert (Hskip : Classify_eqb (classify L) nodeParam && (i <? len1)%nat
                    && negb (r =? rc "/") = false).
    { destruct Hfree as [->|[Hc _]].
      - rewrite Z.eqb_refl. apply andb_false_r.
      - destruct (classify L); try reflexivity. contradiction. }
    rewrite Hskip. unfold findChild at 1. rewrite HL. cbn [firstWithKey].
    set (c1 := insert_walk len1 v pcs' (newNode r None [branchKind r])).
    assert (Hk1 : key c1 = r) by (unfold c1; rewrite insert_walk_key; reflexivity).
    cbn [find_walk]. unfold find_step.
    assert (Hmid : isParam && (j <? len2)%nat && negb (r =? rc "/") = false).
    { destruct Hfree as [->|[_ ->]]; [|reflexivity].
      rewrite Z.eqb_refl. apply andb_false_r. }
    rewrite Hmid, !findChild_only_child by exact HL. rewrite Hk1.
    destruct (Z.eqb_spec r (rc ":")); [contradiction|].
    destruct (Z.eqb_spec r (rc "*")); [contradiction|].
    rewrite Z.eqb_refl.
    apply IH; try assumption; try reflexivity.
    intros [Hc|Hc]; [|discriminate].
    unfold newNode, branchKind in Hc. simpl in Hc.
    destruct (Z.eqb_spec r (rc ":")); [contradiction|].
    destruct (Z.eqb_spec r (rc "*")); [contradiction|]. discriminate.
  - apply fmap_cons_inv in Hps as ([i r'] & pcs' & Hr & Hps & ->).
    simpl in Hr. subst r'. symmetry in Hps.
    apply fmap_app_inv in Hps as (pn & pp & Hpn & Hpp & ->).
    apply fmap_app_inv in Hqs' as (qv & qq & Hqv & Hqq & ->).
    destruct qv as [|[j x] qv']; [simpl in Hqv; congruence|].
    apply Forall_cons in Hpi as [_ Hpi]. apply Forall_app in Hpi as [Hpn_i Hpp_i].
    apply Forall_app in Hqi as [Hqv_i Hqq_i].
    assert (Hnot : classify L <> nodeParam /\ isParam = false).
    { split.
      - intros Hc. specialize (Hstart (or_introl Hc)). discriminate Hstart.
      - destruct isParam; [|reflexivity].
        specialize (Hstart (or_intror eq_refl)). discriminate Hstart. }
    destruct Hnot as [Hcl ->].
    cbn [insert_walk].
    assert (Hskip : Classify_eqb (classify L) nodeParam = false)
      by (destruct (classify L); try reflexivity; contradiction).
    rewrite Hskip. cbn [andb]. unfold findChild at 1. rewrite HL. cbn [firstWithKey].
    rewrite (insert_walk_skip len1 v pn pp);
      [| reflexivity
       | apply (segment_chars len1 pn pn.*2);
         [reflexivity | exact Hpn_i | rewrite <- Hpn; exact Hname]].
    set (P0 := newNode (rc ":") None [branchKind (rc ":")]).
    set (c1 := insert_walk len1 v pp P0).
    assert (Hk1 : key c1 = rc ":") by (unfold c1; rewrite insert_walk_key; reflexivity).
    change (((j, x) :: qv') ++ qq) with ((j, x) :: (qv' ++ qq)).
    cbn [find_walk]. unfold find_step. cbn [andb].
    rewrite !findChild_only_child by exact HL. rewrite Hk1, Z.eqb_refl.
    assert (Hqv' : Forall (fun ir => (ir.1 < len2)%nat /\ ir.2 <> rc "/") qv').
    { apply Forall_cons in Hqv_i as [_ Hqv_i].
      eapply (segment_chars len2 qv' qv'.*2); [reflexivity | exact Hqv_i|].
      intros Hin. apply Hvalno. rewrite Hqv. simpl. right. exact Hin. }
    rewrite find_walk_stay by exact Hqv'.
    apply IH; try assumption; try reflexivity; auto.
  - apply fmap_cons_inv in Hps as ([i r'] & pcs' & Hr & Hps & ->).
    simpl in Hr. subst r'. symmetry in Hps. apply fmap_nil_inv in Hps. subst pcs'.
    destruct qcs as [|[j x] qcs']; [simpl in Hqs'; congruence|].
    assert (Hnot : classify L <> nodeParam /\ isParam = false).
    { split.
      - intros Hc. specialize (Hstart (or_introl Hc)). discriminate Hstart.
      - destruct isParam; [|reflexivity].
        specialize (Hstart (or_intror eq_refl)). discriminate Hstart. }
    destruct Hnot as [Hcl ->].
    cbn [insert_walk].
    assert (Hskip : Classify_eqb (classify L) nodeParam = false)
      by (destruct (classify L); try reflexivity; contradiction).
    rewrite Hskip. cbn [andb]. unfold findChild at 1. rewrite HL. cbn [firstWithKey].
    cbn [find_walk]. unfold find_step. cbn [andb].
    rewrite !findChild_only_child by exact HL.
    eexists. split; reflexivity.
Qed.

Lemma range_slash rest :
  range (String "/" rest) = (0%nat, rc "/") :: range_from 0 1 rest.
Proof. reflexivity. Qed.

Lemma find_generated (pattern p : string) (v : Route) :
  firstByteIsSlash pattern = true ->
  generates (runes pattern) (runes p) ->
  find (insert emptyRoot pattern v).1 p = Ok (Some v).
Proof.
  intros Hslash Hgen.
  apply firstByteIsSlash_spec in Hslash as [rest ->].
  rewrite insert_slash_ok by reflexivity. cbn [fst].
  unfold find, scan. rewrite insert_walk_classify. cbn [emptyRoot classify].
  cbn [Classify_eqb negb].
  destruct (walk_generated _ _ Hgen (String.length (String "/" rest))
              (String.length p) v (range (String "/" rest)) (range p)
              emptyRoot false eq_refl eq_refl (range_indices _) (range_indices _)
              eq_refl) as (e & Hwalk & Hterm).
  { intros [Hc|Hc]; discriminate Hc. }
  destruct (range p) as [|c chars] eqn:Hp.
  - exfalso. unfold runes in Hgen. rewrite Hp, range_slash in Hgen.
    inversion Hgen.
  - rewrite Hwalk. unfold resolve. rewrite Hterm. reflexivity.
Qed.

(** X10.  A pattern registered on a fresh root answers every path it
    generates: the path that repeats the pattern's literal code points,
    puts one or more code points other than ['/'] in place of each
    parameter, and one or more code points of any kind in place of a
    final ['*'] (a catch-all without a name).  find returns the route. *)
Theorem generated_path_found (pattern p : string) (v : Route) :
  firstByteIsSlash pattern = true ->
  generates (runes pattern) (runes p) ->
  find (insert emptyRoot pattern v).1 p = Ok (Some v).
Proof. exact (find_generated pattern p v). Qed.

Lemma generated_path_found_witness :
  find (insert emptyRoot "/let/:name/bullet/*" firstRoute).1 "/let/the/bullet/fly/far"
  = Ok (Some firstRoute).
Proof.
  apply (generated_path_found "/let/:name/bullet/*" "/let/the/bullet/fly/far"
           firstRoute); [reflexivity|].
  vm_compute.
  do 5 (apply generates_literal; [discriminate | discriminate |]).
  apply (generates_param [110; 97; 109; 101]
           [47; 98; 117; 108; 108; 101; 116; 47; 42]
           [116; 104; 101]
           [47; 98; 117; 108; 108; 101; 116; 47; 102; 108; 121; 47; 102; 97; 114]).
  - intros Hin. repeat (apply elem_of_cons in Hin as [Hin|Hin]; [discriminate Hin|]).
    apply elem_of_nil in Hin. exact Hin.
  - discriminate.
  - intros Hin. repeat (apply elem_of_cons in Hin as [Hin|Hin]; [discriminate Hin|]).
    apply elem_of_nil in Hin. exact Hin.
  - reflexivity.
  - do 8 (apply generates_literal; [discriminate | discriminate |]).
    apply generates_catchAll. discriminate.
Defined.

(** ** ContainsRoute *)

Lemma findRoute_built r p method :
  routerBuilt r ->
  (findRoute r p method).2 = None /\
  ((findRoute r p method).1 = true <-> exists v, Router_find r method p = Ok v).
Proof.
  intros Hb. unfold findRoute.
  destruct (Router_find_built r method p Hb) as [[v Hv]|He].
  - rewrite Hv. simpl. split; [reflexivity|]. split; eauto.
  - rewrite He. simpl. split; [reflexivity|].
    split; [discriminate | intros [v [=]]].
Qed.

Lemma containsLoop_built r p methods :
  routerBuilt r ->
  (containsLoop r p methods).2 = None /\
  ((containsLoop r p methods).1 = true
   <-> exists method, method ∈ methods /\ exists v, Router_find r method p = Ok v).
Proof.
  intros Hb. induction methods as [|m rest IH]; simpl.
  - split; [reflexivity|]. split; [discriminate|].
    intros (m & Hm & _). apply elem_of_nil in Hm. contradiction.
  - destruct (findRoute_built r p m Hb) as [He Hok].
    destruct (findRoute r p m) as [ok err]. simpl in He, Hok. subst err. simpl.
    rewrite orb_false_r. destruct ok; simpl.
    + split; [reflexivity|]. split; [|reflexivity].
      intros _. exists m. split; [left | apply Hok; reflexivity].
    + destruct IH as [IHe IHok]. split; [exact IHe|]. rewrite IHok. split.
      * intros (m' & Hm' & Hv). exists m'. split; [right; exact Hm' | exact Hv].
      * intros (m' & Hm' & Hv). apply elem_of_cons in Hm' as [->|Hm'].
        -- apply Hok in Hv. discriminate.
        -- exists m'. auto.
Qed.

(** X11.  On a router built by [addRoute] calls, [ContainsRoute] never
    returns an error.  With a method it answers whether find succeeds
    for that method (so false for a method outside [AllMethod]); with
    the empty method it answers whether find succeeds for at least one
    of the nine methods. *)
Theorem ContainsRoute_answers (r : Router) (p method : string) :
  routerBuilt r ->
  (Mux_ContainsRoute r p method).2 = None /\
  (method <> EmptyString ->
     ((Mux_ContainsRoute r p method).1 = true
      <-> exists v, Router_find r method p = Ok v)) /\
  (method = EmptyString ->
     ((Mux_ContainsRoute r p method).1 = true
      <-> exists m, m ∈ AllMethod /\ exists v, Router_find r m p = Ok v)).
Proof.
  intros Hb. unfold Mux_ContainsRoute.
  destruct (String.eqb_spec method "") as [->|Hne]; simpl.
  - destruct (containsLoop_built r p AllMethod Hb) as [He Hok].
    split; [exact He|]. split; [congruence | intros _; exact Hok].
  - destruct (findRoute_built r p method Hb) as [He Hok].
    split; [exact He|]. split; [intros _; exact Hok | congruence].
Qed.

Lemma ContainsRoute_answers_witness :
  Mux_ContainsRoute newRouter "/missing" "GET" = (false, None) /\
  (Mux_ContainsRoute (Router_addRoute newRouter "POST" "/a" (say "a") []).1
     "/a" "").1 = true.
Proof.
  split.
  - by_evaluation.
  - destruct (ContainsRoute_answers
                (Router_addRoute newRouter "POST" "/a" (say "a") []).1 "/a" "")
      as (_ & _ & H).
    { apply routerBuilt_addRoute, routerBuilt_new. }
    apply (H eq_refl). exists "POST"%string. split.
    + unfold AllMethod. do 2 right. left.
    + eexists. by_evaluation.
Defined.

(** ** ServeHTTP *)

Lemma insert_sentinelsCarry node p v :
  nulFree p -> sentinelsCarry node -> sentinelsCarry (insert node p v).1.
Proof.
  intros Hp Hn. unfold insert.
  destruct (negb (Classify_eqb (classify node) NodeRoot)); [exact Hn|].
  destruct (String.eqb p ""); [exact Hn|].
  destruct (negb (firstByteIsSlash p)); [exact Hn|].
  apply insert_walk_sentinelsCarry; [apply nulFree_runes, Hp | exact Hn].
Qed.

Lemma routerBuiltNulFree_roots r :
  routerBuiltNulFree r ->
  forall method n, rootOf r method = Some (Some n) -> sentinelsCarry n.
Proof.
  induction 1 as [|r method p h wares _ IH Hp]; intros method' n Hn.
  - unfold rootOf, newRouter in Hn. simpl in Hn.
    revert Hn. case_method method'; discriminate.
  - destruct (String.eq_dec method' method) as [->|Hne].
    + destruct (rootOf r method) as [field|] eqn:Hroot.
      * destruct (Router_addRoute_known r method p h wares field Hroot) as [Hf _].
        rewrite Hf, insertAt_fst in Hn. injection Hn as <-.
        apply insert_sentinelsCarry; [exact Hp|].
        destruct field as [m|]; [apply (IH method); exact Hroot|].
        apply (sentinelsCarry_leaf 0 None [NodeRoot]).
      * rewrite (Router_addRoute_unknown r method p h wares Hroot) in Hn.
        simpl in Hn. congruence.
    + rewrite Router_addRoute_other in Hn by exact Hne. eapply IH, Hn.
Qed.

(** X12.  When every pattern given to [addRoute] is free of NUL bytes,
    [ServeHTTP] never panics in the router's own code: find never
    hands it a nil route to dereference, and [ParseParameter] never
    indexes out of range. *)
Theorem ServeHTTP_never_panics (pathClean : string -> string) (mux : Mux)
    (r : Router) (w : ResponseWriter) (request : Request) :
  routerBuiltNulFree r ->
  Mux_ServeHTTP pathClean mux r w request <> ServePanic.
Proof.
  intros Hb. unfold Mux_ServeHTTP.
  destruct (Router_find r (Method request) (pathClean (URLPath request)))
    as [[h|]|e] eqn:Hf; [| |discriminate].
  - pose proof (ParseParameter_no_panic (pathClean (URLPath request)) (path h)).
    destruct (ParseParameter _ (path h)); [discriminate | contradiction].
  - exfalso. rewrite Router_find_rootOf in Hf.
    destruct (rootOf r (Method request)) as [[n|]|] eqn:Hroot; try discriminate.
    simpl in Hf. eapply find_not_nil; [|exact Hf].
    eapply routerBuiltNulFree_roots; eassumption.
Qed.

Lemma ServeHTTP_never_panics_witness :
  Mux_ServeHTTP id (mkMux "" (say "404") [])
    (Router_addRoute newRouter "GET" "/hello/:name" (say "hello") []).1
    [] (mkRequest "GET" "/hello/world" ∅)
  <> ServePanic.
Proof.
  apply (ServeHTTP_never_panics id (mkMux "" (say "404") [])).
  apply routerBuiltNulFree_addRoute; [apply routerBuiltNulFree_new | reflexivity].
Defined.

(** X13.  A route whose pattern holds neither [':'] nor ['*'] is served
    with the request as it came in: the router sets no header, and
    does not remove one either, so the handler reads from [GetParameter]
    whatever the incoming request carried under the header name. *)
Theorem ServeHTTP_passes_request (pathClean : string -> string) (mux : Mux)
    (r : Router) (w : ResponseWriter) (request : Request) (h : Route) :
  Router_find r (Method request) (pathClean (URLPath request)) = Ok (Some h) ->
  Contains (path h) ":" = false -> Contains (path h) "*" = false ->
  Mux_ServeHTTP pathClean mux r w request = Served (Route_ServeHTTP h w request).
Proof.
  intros Hf Hc Hs. unfold Mux_ServeHTTP, ParseParameter.
  rewrite Hf, Hc, Hs. reflexivity.
Qed.

Lemma ServeHTTP_passes_request_witness :
  Mux_ServeHTTP id (mkMux "" (say "404") [])
    (Router_addRoute newRouter "GET" "/a"
       (fun w request => w ++ [Parameter_Get (GetParameter request) "id"]) []).1
    [] (mkRequest "GET" "/a" {[ headerName := "id:forged"%string ]})
  = Served ["forged"%string].
Proof.
  rewrite (ServeHTTP_passes_request id (mkMux "" (say "404") [])
             (Router_addRoute newRouter "GET" "/a"
                (fun w request => w ++ [Parameter_Get (GetParameter request) "id"]) []).1
             [] (mkRequest "GET" "/a" {[ headerName := "id:forged"%string ]})
             (mkRoute "/a"
                (fun w request => w ++ [Parameter_Get (GetParameter request) "id"]) []));
    by_evaluation.
Defined.

(** ** Only absolute paths are found *)

Lemma insert_root_children node p v :
  (forall c, c ∈ children node -> key c = rc "/") ->
  forall c, c ∈ children (insert node p v).1 -> key c = rc "/".
Proof.
  intros Hn. unfold insert.
  destruct (negb (Classify_eqb (classify node) NodeRoot)); [exact Hn|].
  destruct (String.eqb p ""); [exact Hn|].
  destruct (firstByteIsSlash p) eqn:Hs; [|exact Hn].
  apply firstByteIsSlash_spec in Hs as [rest ->].
  cbn [negb fst]. rewrite range_slash. cbn [insert_walk].
  rewrite Z.eqb_refl, andb_false_r.
  destruct (findChild node (rc "/")) as [child|] eqn:Hc; simpl; intros c Hin.
  - apply replaceFirst_elem in Hin as [->|Hin]; [|auto].
    rewrite insert_walk_key. eapply firstWithKey_key, Hc.
  - apply elem_of_app in Hin as [Hin|Hin]; [auto|].
    apply list_elem_of_singleton in Hin. subst c. apply insert_walk_key.
Qed.

Lemma routerBuilt_root_children r :
  routerBuilt r ->
  forall method n, rootOf r method = Some (Some n) ->
    forall c, c ∈ children n -> key c = rc "/".
Proof.
  induction 1 as [|r method p h wares _ IH]; intros method' n Hn.
  - unfold rootOf, newRouter in Hn. simpl in Hn.
    revert Hn. case_method method'; discriminate.
  - destruct (String.eq_dec method' method) as [->|Hne].
    + destruct (rootOf r method) as [field|] eqn:Hroot.
      * destruct (Router_addRoute_known r method p h wares field Hroot) as [Hf _].
        rewrite Hf, insertAt_fst in Hn. injection Hn as <-.
        apply insert_root_children.
        destruct field as [m|]; [apply (IH method); exact Hroot|].
        intros c Hc. apply elem_of_nil in Hc. contradiction.
      * rewrite (Router_addRoute_unknown r method p h wares Hroot) in Hn.
        simpl in Hn. congruence.
    + rewrite Router_addRoute_other in Hn by exact Hne. eapply IH, Hn.
Qed.

Lemma firstWithKey_absent k l :
  (forall c, c ∈ l -> key c <> k) -> firstWithKey k l = None.
Proof.
  intros H. apply firstWithKey_None. intros Hin.
  apply list_elem_of_fmap in Hin as (c & -> & Hc). exact (H c Hc eq_refl).
Qed.

Lemma find_relative n p :
  classify n = NodeRoot ->
  (forall c, c ∈ children n -> key c = rc "/") ->
  firstByteIsSlash p = false ->
  find n p = Err errRouteNotFound.
Proof.
  intros Hroot Hkeys Hp. unfold find, scan. rewrite Hroot. cbn [Classify_eqb negb].
  destruct p as [|a t]; [reflexivity|].
  unfold range. cbn [range_from].
  destruct (decodeRune (String a t)) as [r w] eqn:Hd.
  assert (Hr : r <> rc "/").
  { intros ->. destruct (decodeRune_ascii _ _ _ _ Hd) as [Ha _]; [reflexivity|].
    simpl in Hp. rewrite <- Ha in Hp. discriminate. }
  cbn [find_walk]. unfold find_step. cbn [andb].
  unfold findChild.
  rewrite !firstWithKey_absent; [reflexivity | | |];
    intros c Hc Hk; rewrite (Hkeys c Hc) in Hk; try discriminate Hk.
  apply Hr. symmetry. exact Hk.
Qed.

(** X14.  On a router built by [addRoute] calls, a path that does not
    start with ['/'] (the empty path, or the "." that [path.Clean]
    makes of it) is never found, whatever is registered: every pattern
    starts with ['/'], so a root has no other child. *)
Theorem relative_path_not_found (r : Router) (method p : string) :
  routerBuilt r -> firstByteIsSlash p = false ->
  Router_find r method p = Err errRouteNotFound.
Proof.
  intros Hb Hp. rewrite Router_find_rootOf.
  destruct (rootOf r method) as [[n|]|] eqn:Hroot; try reflexivity. simpl.
  apply find_relative; [| |exact Hp].
  - eapply routerBuilt_roots; eassumption.
  - eapply routerBuilt_root_children; eassumption.
Qed.

Lemma relative_path_not_found_witness :
  Router_find (Router_addRoute newRouter "GET" "/" (say "home") []).1 "GET" "."
  = Err errRouteNotFound.
Proof.
  apply (relative_path_not_found
           (Router_addRoute newRouter "GET" "/" (say "home") []).1 "GET" ".").
  - apply routerBuilt_addRoute, routerBuilt_new.
  - reflexivity.
Defined.

(** ** Tries of static patterns *)

Lemma static_findChild n k c : static n -> findChild n k = Some c -> static c.
Proof.
  intros [m _ _ Hall] Hc. apply firstWithKey_elem in Hc.
  rewrite Forall_forall in Hall. auto.
Qed.

Lemma static_no_wild n :
  static n -> findChild n (rc ":") = None /\ findChild n (rc "*") = None.
Proof.
  intros [m _ Hkeys _]. unfold findChild.
  split; apply firstWithKey_absent; intros c Hc; apply (Hkeys c Hc).
Qed.

Lemma static_leaf k v cl :
  match cl with c :: _ => c | [] => NodeRoot end <> nodeParam ->
  static (newNode k v cl).
Proof.
  intros Hcl. constructor; simpl; [exact Hcl | | constructor].
  intros c Hc. apply elem_of_nil in Hc. contradiction.
Qed.

Lemma branchKind_plain r : r <> rc ":" -> r <> rc "*" -> branchKind r = nodeNormal.
Proof.
  intros Hc Hs. unfold branchKind.
  destruct (Z.eqb_spec r (rc ":")); [contradiction|].
  destruct (Z.eqb_spec r (rc "*")); [contradiction|]. reflexivity.
Qed.

Lemma find_walk_static len chars : forall n,
  static n -> find_walk len chars n false = descend chars.*2 n.
Proof.
  induction chars as [|[k ch] rest IH]; intros n Hn; [reflexivity|].
  cbn [find_walk fmap list_fmap snd descend]. unfold find_step. cbn [andb].
  destruct (static_no_wild n Hn) as [-> ->].
  destruct (findChild n ch) as [c|] eqn:Hc; [|reflexivity].
  apply IH. eapply static_findChild; eassumption.
Qed.

Lemma insert_walk_static_step len v i r rest L :
  static L ->
  insert_walk len v ((i, r) :: rest) L =
  match findChild L r with
  | Some child => setChild L r (insert_walk len v rest child)
  | None => attach L (insert_walk len v rest (newNode r None [branchKind r]))
  end.
Proof.
  intros [n Hcl _ _]. cbn [insert_walk].
  destruct (classify n); try reflexivity. contradiction.
Qed.

Lemma insert_walk_static len v pcs : forall L,
  Forall (fun ir => plainRune ir.2) pcs -> static L ->
  static (insert_walk len v pcs L).
Proof.
  induction pcs as [|[i r] rest IH]; intros L Hp HL.
  - destruct HL as [L Hcl Hkeys Hall]. constructor; simpl; [exact Hcl| |].
    + intros c Hc. apply elem_of_app in Hc as [Hc|Hc]; [auto|].
      apply list_elem_of_singleton in Hc. subst c. split; discriminate.
    + apply Forall_app. split; [exact Hall|].
      constructor; [apply static_leaf; discriminate | constructor].
  - apply Forall_cons in Hp as [(Hc & Hs & _) Hrest]. simpl in Hc, Hs.
    rewrite insert_walk_static_step by exact HL.
    destruct (findChild L r) as [child|] eqn:Hchild.
    + pose proof (static_findChild _ _ _ HL Hchild) as Hch.
      destruct HL as [L Hcl Hkeys Hall]. constructor; simpl; [exact Hcl| |].
      * intros c Hin. apply replaceFirst_elem in Hin as [->|Hin]; [|auto].
        rewrite insert_walk_key. apply Hkeys. eapply firstWithKey_elem, Hchild.
      * apply replaceFirst_Forall; [exact Hall | apply IH; assumption].
    + destruct HL as [L Hcl Hkeys Hall]. constructor; simpl; [exact Hcl| |].
      * intros c Hin. apply elem_of_app in Hin as [Hin|Hin]; [auto|].
        apply list_elem_of_singleton in Hin. subst c.
        rewrite insert_walk_key. simpl. auto.
      * apply Forall_app. split; [exact Hall|].
        constructor; [|constructor]. apply IH; [exact Hrest|].
        apply static_leaf. simpl. rewrite branchKind_plain by assumption. discriminate.
Qed.

Lemma descend_leaf_terminal rs k v cl :
  descend rs (newNode k v cl) ≫= (fun e => findChild e eof) = None.
Proof. destruct rs; reflexivity. Qed.

(** Along the pattern: the insert walk ends where the descent ends, and
    the terminal it appends is found there unless one was there before. *)
Lemma descend_insert_same len v pcs : forall L,
  static L -> Forall (fun ir => plainRune ir.2) pcs ->
  exists e',
    descend pcs.*2 (insert_walk len v pcs L) = Some e' /\
    findChild e' eof =
    Some (default (terminalOf v)
            (descend pcs.*2 L ≫= (fun e => findChild e eof))).
Proof.
  induction pcs as [|[i r] rest IH]; intros L HL Hp.
  - simpl. eexists. split; [reflexivity|].
    unfold findChild. simpl. rewrite firstWithKey_app.
    destruct (firstWithKey eof (children L)); reflexivity.
  - apply Forall_cons in Hp as [(Hc & Hs & He) Hrest]. simpl in Hc, Hs, He.
    rewrite insert_walk_static_step by exact HL.
    cbn [fmap list_fmap snd descend].
    destruct (findChild L r) as [child|] eqn:Hchild.
    + assert (H1 : findChild (setChild L r (insert_walk len v rest child)) r
                   = Some (insert_walk len v rest child)).
      { unfold findChild. simpl. apply firstWithKey_replaced; [|eauto].
        rewrite insert_walk_key. eapply firstWithKey_key, Hchild. }
      rewrite H1. apply IH; [eapply static_findChild; eassumption | exact Hrest].
    + set (fresh := newNode r None [branchKind r]).
      assert (H1 : findChild (attach L (insert_walk len v rest fresh)) r
                   = Some (insert_walk len v rest fresh)).
      { unfold findChild in *. simpl. rewrite firstWithKey_app, Hchild. simpl.
        rewrite insert_walk_key. simpl. rewrite Z.eqb_refl. reflexivity. }
      rewrite H1.
      destruct (IH fresh) as (e' & Hd & Ht); [|exact Hrest|].
      { apply static_leaf. simpl. rewrite branchKind_plain by assumption. discriminate. }
      exists e'. split; [exact Hd|].
      rewrite Ht. unfold fresh. rewrite descend_leaf_terminal. reflexivity.
Qed.

Lemma findChild_attach L d q :
  key d <> q -> findChild (attach L d) q = findChild L q.
Proof.
  intros Hk. unfold findChild, attach. cbn [children].
  rewrite firstWithKey_app.
  destruct (firstWithKey q (children L)); [reflexivity|].
  cbn [firstWithKey]. destruct (Z.eqb_spec (key d) q); [contradiction | reflexivity].
Qed.

Lemma findChild_attach_new L d k :
  findChild L k = None -> key d = k -> findChild (attach L d) k = Some d.
Proof.
  intros Hn Hk. unfold findChild, attach in *. cbn [children].
  rewrite firstWithKey_app, Hn. cbn [firstWithKey].
  rewrite Hk, Z.eqb_refl. reflexivity.
Qed.

Lemma findChild_setChild L d k c :
  findChild L k = Some c -> key d = k -> findChild (setChild L k d) k = Some d.
Proof.
  intros Hc Hk. unfold findChild, setChild in *. cbn [children].
  apply firstWithKey_replaced; [exact Hk | eauto].
Qed.

Lemma findChild_setChild_other L d k q :
  key d = k -> q <> k -> findChild (setChild L k d) q = findChild L q.
Proof.
  intros Hk Hq. unfold findChild, setChild. cbn [children].
  apply firstWithKey_replaced_other; assumption.
Qed.

(** Off the pattern: a terminal lookup at the end of any other descent
    is as it was, and the nodes that the insert creates on its way
    have no terminal. *)
Lemma descend_insert_other len v pcs : forall qs L,
  static L -> Forall (fun ir => plainRune ir.2) pcs ->
  eof ∉ qs -> qs <> pcs.*2 ->
  match descend qs (insert_walk len v pcs L), descend qs L with
  | Some e', Some e => findChild e' eof = findChild e eof
  | Some e', None => findChild e' eof = None
  | None, None => True
  | None, Some _ => False
  end.
Proof.
  induction pcs as [|[i r] rest IH]; intros qs L HL Hp Hq Hne.
  - destruct qs as [|q qs']; [exfalso; apply Hne; reflexivity|].
    apply not_elem_of_cons in Hq as [Hq _].
    cbn [insert_walk descend]. unfold branch.
    rewrite findChild_attach by exact Hq.
    destruct (findChild L q) as [c|]; [|exact I].
    destruct (descend qs' c); [reflexivity | exact I].
  - apply Forall_cons in Hp as [(Hc & Hs & He) Hrest]. simpl in Hc, Hs, He.
    rewrite insert_walk_static_step by exact HL.
    destruct qs as [|q qs'].
    + cbn [descend].
      destruct (findChild L r) as [child|] eqn:Hchild.
      * apply findChild_setChild_other; [|intros E; apply He; symmetry; exact E].
        rewrite insert_walk_key. eapply firstWithKey_key, Hchild.
      * apply findChild_attach. rewrite insert_walk_key. exact He.
    + apply not_elem_of_cons in Hq as [Hq Hq'].
      cbn [descend].
      destruct (Z.eq_dec q r) as [->|Hqr].
      * assert (Hne' : qs' <> rest.*2) by (intros ->; apply Hne; reflexivity).
        destruct (findChild L r) as [child|] eqn:Hchild.
        -- rewrite (findChild_setChild L _ r child Hchild).
           ++ apply IH; try assumption. eapply static_findChild; eassumption.
           ++ rewrite insert_walk_key. eapply firstWithKey_key, Hchild.
        -- set (fresh := newNode r None [branchKind r]).
           rewrite (findChild_attach_new L _ r Hchild)
             by (rewrite insert_walk_key; reflexivity).
           assert (Hfresh : static fresh).
           { apply static_leaf. simpl. rewrite branchKind_plain by assumption.
             discriminate. }
           pose proof (IH qs' fresh Hfresh Hrest Hq' Hne') as HI.
           destruct (descend qs' (insert_walk len v rest fresh)) as [e'|]; [|exact I].
           destruct qs' as [|q' qs'']; simpl in HI; exact HI.
      * destruct (findChild L r) as [child|] eqn:Hchild.
        -- rewrite findChild_setChild_other;
             [| rewrite insert_walk_key; eapply firstWithKey_key, Hchild | exact Hqr].
           destruct (findChild L q) as [c|]; [|exact I].
           destruct (descend qs' c); [reflexivity | exact I].
        -- rewrite findChild_attach
             by (rewrite insert_walk_key; intros E; apply Hqr; symmetry; exact E).
           destruct (findChild L q) as [c|]; [|exact I].
           destruct (descend qs' c); [reflexivity | exact I].
Qed.

Lemma staticPattern_runes pattern :
  staticPattern pattern -> Forall (fun ir => plainRune ir.2) (range pattern).
Proof.
  intros (Hc & Hs & Hn).
  pose proof (range_without_byte pattern ":" eq_refl Hc) as H1.
  pose proof (range_without_byte pattern "*" eq_refl Hs) as H2.
  pose proof (range_without_byte pattern "000" eq_refl Hn) as H3.
  rewrite Forall_forall in *. intros ir Hin.
  split; [apply (H1 ir Hin) | split; [apply (H2 ir Hin) | apply (H3 ir Hin)]].
Qed.

Lemma runes_without_eof (chars : list (nat * rune)) :
  Forall (fun ir => ir.2 <> eof) chars -> eof ∉ chars.*2.
Proof.
  intros H Hin. apply list_elem_of_fmap in Hin as ([i r] & Hr & Hin).
  rewrite Forall_forall in H. apply (H _ Hin). symmetry. exact Hr.
Qed.

Lemma staticPattern_no_eof pattern : staticPattern pattern -> eof ∉ runes pattern.
Proof. intros (_ & _ & Hn). apply runes_without_eof, nulFree_runes, Hn. Qed.

Lemma built_root t log : built t log -> classify t = NodeRoot.
Proof.
  induction 1 as [|t log pattern v t' _ IH Hins]; [reflexivity|].
  apply insert_ok_walk in Hins. subst t'. rewrite insert_walk_classify. exact IH.
Qed.

Lemma built_patterns t log :
  built t log -> Forall (fun pr => firstByteIsSlash pr.1 = true) log.
Proof.
  induction 1 as [|t log pattern v t' _ IH Hins]; constructor; [|exact IH].
  simpl. unfold insert in Hins.
  destruct (negb (Classify_eqb (classify t) NodeRoot)); [discriminate|].
  destruct (String.eqb pattern ""); [discriminate|].
  destruct (firstByteIsSlash pattern); [reflexivity | discriminate].
Qed.

Lemma built_static t log :
  built t log -> Forall staticPattern log.*1 -> static t.
Proof.
  induction 1 as [|t log pattern v t' _ IH Hins]; intros Hlog.
  - apply (static_leaf 0 None [NodeRoot]). discriminate.
  - apply Forall_cons in Hlog as [Hp Hlog]. simpl in Hp.
    apply insert_ok_walk in Hins. subst t'.
    apply insert_walk_static; [apply staticPattern_runes, Hp | apply IH, Hlog].
Qed.

(** Every terminal of the trie was put there for a logged pattern with
    the code points that lead to it. *)
Lemma built_terminals t log :
  built t log -> Forall staticPattern log.*1 ->
  forall qs e x,
    eof ∉ qs -> descend qs t = Some e -> findChild e eof = Some x ->
    exists P R, (P, R) ∈ log /\ runes P = qs /\ value x = Some R.
Proof.
  induction 1 as [|t log pattern v t' Hb IH Hins]; intros Hlog qs e x Hq Hd Hx.
  - destruct qs as [|q qs']; simpl in Hd; [|discriminate].
    injection Hd as <-. discriminate Hx.
  - apply Forall_cons in Hlog as [Hp Hlog]. simpl in Hp.
    apply insert_ok_walk in Hins. subst t'.
    pose proof (built_static _ _ Hb Hlog) as Hst.
    pose proof (staticPattern_runes _ Hp) as Hplain.
    destruct (decide (qs = runes pattern)) as [->|Hne].
    + destruct (descend_insert_same (String.length pattern) v (range pattern) t
                  Hst Hplain) as (e' & Hd' & Ht).
      unfold runes in Hd. rewrite Hd' in Hd. injection Hd as <-.
      rewrite Ht in Hx. injection Hx as <-.
      destruct (descend (range pattern).*2 t) as [e0|] eqn:Hd0; simpl.
      * destruct (findChild e0 eof) as [x0|] eqn:Hx0; simpl.
        -- destruct (IH Hlog _ _ _ Hq Hd0 Hx0) as (P & R & Hin & HP & HR).
           exists P, R. split; [right; exact Hin | auto].
        -- exists pattern, v. split; [left | split; reflexivity].
      * exists pattern, v. split; [left | split; reflexivity].
    + pose proof (descend_insert_other (String.length pattern) v (range pattern)
                    qs t Hst Hplain Hq Hne) as Ho.
      rewrite Hd in Ho.
      destruct (descend qs t) as [e0|] eqn:Hd0; [|congruence].
      rewrite Ho in Hx.
      destruct (IH Hlog _ _ _ Hq Hd0 Hx) as (P & R & Hin & HP & HR).
      exists P, R. split; [right; exact Hin | auto].
Qed.

(** Every logged pattern leads to a node with a terminal. *)
Lemma built_reaches t log :
  built t log -> Forall staticPattern log.*1 ->
  forall P R, (P, R) ∈ log ->
    exists e x, descend (runes P) t = Some e /\ findChild e eof = Some x.
Proof.
  induction 1 as [|t log pattern v t' Hb IH Hins]; intros Hlog P R Hin.
  - apply elem_of_nil in Hin. contradiction.
  - pose proof Hlog as Hall.
    apply Forall_cons in Hlog as [Hp Hlog]. simpl in Hp.
    apply insert_ok_walk in Hins. subst t'.
    pose proof (built_static _ _ Hb Hlog) as Hst.
    pose proof (staticPattern_runes _ Hp) as Hplain.
    destruct (descend_insert_same (String.length pattern) v (range pattern) t
                Hst Hplain) as (e' & Hd' & Ht).
    destruct (decide (runes P = runes pattern)) as [Heq|Hne].
    + rewrite Heq. eauto.
    + apply elem_of_cons in Hin as [[= -> ->]|Hin]; [contradiction|].
      destruct (IH Hlog P R Hin) as (e & x & Hd & Hx).
      assert (HP : staticPattern P).
      { rewrite Forall_forall in Hlog. apply Hlog.
        apply list_elem_of_fmap. exists (P, R). auto. }
      pose proof (descend_insert_other (String.length pattern) v (range pattern)
                    (runes P) t Hst Hplain (staticPattern_no_eof _ HP) Hne) as Ho.
      rewrite Hd in Ho.
      destruct (descend (runes P) (insert_walk _ v (range pattern) t)) as [e1|];
        [|contradiction].
      exists e1, x. split; [reflexivity | congruence].
Qed.

Lemma find_static t q :
  classify t = NodeRoot -> static t -> range q <> [] ->
  find t q = match descend (runes q) t with
             | Some e => resolve e
             | None => Err errRouteNotFound
             end.
Proof.
  intros Hroot Hst Hq. unfold find, scan, runes. rewrite Hroot. cbn [Classify_eqb negb].
  rewrite <- (find_walk_static (String.length q)) by exact Hst.
  destruct (range q); [contradiction|].
  destruct (find_walk _ _ t false); reflexivity.
Qed.

Lemma range_of_slash_pattern P : firstByteIsSlash P = true -> range P <> [].
Proof.
  intros H. apply firstByteIsSlash_spec in H as [rest ->].
  rewrite range_slash. discriminate.
Qed.

(** X15.  In a trie built from static patterns only (no [':'], no
    ['*'], no NUL byte), every registered pattern is found when looked
    up as a path, and the route returned was registered under a pattern
    with the same code points. *)
Theorem static_pattern_found (t : Node) (log : list (string * Route))
    (P : string) (R : Route) :
  built t log -> Forall staticPattern log.*1 -> (P, R) ∈ log ->
  exists P' R',
    (P', R') ∈ log /\ runes P' = runes P /\ find t P = Ok (Some R').
Proof.
  intros Hb Hlog Hin.
  destruct (built_reaches _ _ Hb Hlog P R Hin) as (e & x & Hd & Hx).
  assert (HP : staticPattern P).
  { rewrite Forall_forall in Hlog. apply Hlog.
    apply list_elem_of_fmap. exists (P, R). auto. }
  destruct (built_terminals _ _ Hb Hlog _ _ _ (staticPattern_no_eof _ HP) Hd Hx)
    as (P' & R' & Hin' & HP' & HR').
  exists P', R'. split; [exact Hin' | split; [exact HP'|]].
  rewrite find_static.
  - rewrite Hd. unfold resolve. rewrite Hx, HR'. reflexivity.
  - eapply built_root, Hb.
  - eapply built_static; eassumption.
  - apply range_of_slash_pattern.
    pose proof (built_patterns _ _ Hb) as Hs. rewrite Forall_forall in Hs.
    apply (Hs (P, R) Hin).
Qed.

Lemma descend_snoc qs r t e c :
  descend qs t = Some e -> findChild e r = Some c -> descend (qs ++ [r]) t = Some c.
Proof.
  revert t. induction qs as [|q qs IH]; intros t; simpl.
  - intros [= <-] ->. reflexivity.
  - destruct (findChild t q); [apply IH | discriminate].
Qed.

(** X16.  In a trie built from static patterns only, a successful
    lookup of a path without NUL bytes returns a route that was
    registered under a pattern with the code points of the path, or
    with those code points followed by one ['/']. *)
Theorem static_find_exact (t : Node) (log : list (string * Route))
    (q : string) (o : option Route) :
  built t log -> Forall staticPattern log.*1 -> nulFree q ->
  find t q = Ok o ->
  exists P R,
    o = Some R /\ (P, R) ∈ log /\
    (runes P = runes q \/ runes P = runes q ++ [rc "/"]).
Proof.
  intros Hb Hlog Hq Hf.
  pose proof (built_static _ _ Hb Hlog) as Hst.
  pose proof (runes_without_eof _ (nulFree_runes _ Hq)) as Hno.
  assert (Hne : range q <> []).
  { intros Hr. unfold find, scan in Hf. rewrite Hr in Hf.
    destruct (negb _); discriminate. }
  rewrite find_static in Hf; [| eapply built_root, Hb | exact Hst | exact Hne].
  fold (runes q) in Hno.
  destruct (descend (runes q) t) as [e|] eqn:Hd; [|discriminate].
  unfold resolve in Hf.
  destruct (findChild e eof) as [x|] eqn:Hx.
  - destruct (built_terminals _ _ Hb Hlog _ _ _ Hno Hd Hx) as (P & R & Hin & HP & HR).
    exists P, R. injection Hf as <-. auto.
  - destruct (findChild e (rc "/")) as [slash|] eqn:Hs; [|discriminate].
    destruct (findChild slash eof) as [x|] eqn:Hx'; [|discriminate].
    pose proof (descend_snoc _ _ _ _ _ Hd Hs) as Hd'.
    assert (Hno' : eof ∉ runes q ++ [rc "/"]).
    { intros Hin. apply elem_of_app in Hin as [Hin|Hin]; [contradiction|].
      apply list_elem_of_singleton in Hin. discriminate Hin. }
    destruct (built_terminals _ _ Hb Hlog _ _ _ Hno' Hd' Hx') as (P & R & Hin & HP & HR).
    exists P, R. injection Hf as <-. auto.
Qed.

Lemma static_pattern_found_witness :
  exists P' R',
    (P', R') ∈ [("/b"%string, secondRoute); ("/a"%string, firstRoute)] /\
    runes P' = runes "/a" /\
    find (insert (insert emptyRoot "/a" firstRoute).1 "/b" secondRoute).1 "/a"
    = Ok (Some R').
Proof.
  apply (static_pattern_found
           (insert (insert emptyRoot "/a" firstRoute).1 "/b" secondRoute).1
           [("/b"%string, secondRoute); ("/a"%string, firstRoute)] "/a" firstRoute).
  - apply (built_insert (insert emptyRoot "/a" firstRoute).1
             [("/a"%string, firstRoute)] "/b" secondRoute); [|by_evaluation].
    apply (built_insert emptyRoot [] "/a" firstRoute);
      [apply built_fresh | by_evaluation].
  - repeat constructor.
  - right. left.
Defined.

Lemma static_find_exact_witness :
  exists P R,
    Some firstRoute = Some R /\ (P, R) ∈ [("/a/"%string, firstRoute)] /\
    (runes P = runes "/a" \/ runes P = runes "/a" ++ [rc "/"]).
Proof.
  apply (static_find_exact trailingSlashTrie [("/a/"%string, firstRoute)] "/a"
           (Some firstRoute)).
  - apply (built_insert emptyRoot [] "/a/" firstRoute);
      [apply built_fresh | by_evaluation].
  - repeat constructor.
  - reflexivity.
  - by_evaluation.
Defined.

(** ** From registration to the handler *)

Lemma rootOf_newRouter method :
  method ∈ AllMethod -> rootOf newRouter method = Some None.
Proof.
  intros H. unfold AllMethod in H.
  repeat (apply elem_of_cons in H as [->|H]; [reflexivity|]).
  apply elem_of_nil in H. contradiction.
Qed.

(** X17.  Registration and lookup through the router agree: after
    [addRoute(method, p, h, wares...)] on a new router, for any of the
    nine methods and a pattern that starts with ['/'], looking up under
    that method a path that the pattern generates returns the route
    made of [p], [h] and [wares]. *)
Theorem addRoute_then_find (method p q : string) (h : RouteHandler)
    (wares : list Middleware) :
  method ∈ AllMethod -> firstByteIsSlash p = true ->
  generates (runes p) (runes q) ->
  (Router_addRoute newRouter method p h wares).2 = None /\
  Router_find (Router_addRoute newRouter method p h wares).1 method q
  = Ok (Some (mkRoute p h wares)).
Proof.
  intros Hm Hp Hgen.
  destruct (Router_addRoute_known newRouter method p h wares None
              (rootOf_newRouter method Hm)) as [Hroot Herr].
  split.
  - rewrite Herr, insertAt_snd. simpl.
    apply firstByteIsSlash_spec in Hp as [rest ->].
    rewrite insert_slash_ok by reflexivity. reflexivity.
  - rewrite Router_find_rootOf, Hroot, insertAt_fst. simpl.
    apply find_generated; assumption.
Qed.

Lemma addRoute_then_find_witness :
  (Router_addRoute newRouter "PUT" "/users/:id" (say "put") []).2 = None /\
  Router_find (Router_addRoute newRouter "PUT" "/users/:id" (say "put") []).1
    "PUT" "/users/42"
  = Ok (Some (mkRoute "/users/:id" (say "put") [])).
Proof.
  apply (addRoute_then_find "PUT" "/users/:id" "/users/42" (say "put") []).
  - unfold AllMethod. right. left.
  - reflexivity.
  - vm_compute.
    do 7 (apply generates_literal; [discriminate | discriminate |]).
    apply (generates_param [105; 100] [] [52; 50] []).
    + intros Hin. repeat (apply elem_of_cons in Hin as [Hin|Hin]; [discriminate Hin|]).
      apply elem_of_nil in Hin. exact Hin.
    + discriminate.
    + intros Hin. repeat (apply elem_of_cons in Hin as [Hin|Hin]; [discriminate Hin|]).
      apply elem_of_nil in Hin. exact Hin.
    + exact I.
    + apply generates_end.
Defined.

Lemma GetParameter_after_Set request s :
  s <> EmptyString ->
  GetParameter (Header_Set request headerName s) = Some (Parameter_Load ∅ s).
Proof.
  intros Hs. unfold GetParameter, Header_Get, Header_Set. simpl.
  rewrite lookup_insert_eq. simpl.
  destruct (String.eqb_spec s ""); [contradiction | reflexivity].
Qed.

(** X18.  From the request to the handler: when the route found for the
    cleaned path has its only catch-all, if any, in last position and
    the path has at least as many segments as the pattern, and the
    pairs to extract are not empty, have distinct names and hold no
    [':'] or [','], then [ServeHTTP] runs the route on a request from
    which [GetParameter(r).Get(name)] gives each parameter its value. *)
Theorem ServeHTTP_delivers_parameters (pathClean : string -> string) (mux : Mux)
    (r : Router) (w : ResponseWriter) (request : Request) (h : Route) :
  Router_find r (Method request) (pathClean (URLPath request)) = Ok (Some h) ->
  catchAllOnlyLast (Split (path h) "/") = true ->
  (length (Split (path h) "/")
   <= length (Split (pathClean (URLPath request)) "/"))%nat ->
  extracted (Split (path h) "/") (Split (pathClean (URLPath request)) "/") <> [] ->
  NoDup (extracted (Split (path h) "/")
           (Split (pathClean (URLPath request)) "/")).*1 ->
  Forall benign (extracted (Split (path h) "/")
                   (Split (pathClean (URLPath request)) "/")).*1 ->
  Forall benign (extracted (Split (path h) "/")
                   (Split (pathClean (URLPath request)) "/")).*2 ->
  exists request',
    Mux_ServeHTTP pathClean mux r w request
    = Served (Route_ServeHTTP h w request') /\
    forall n v,
      (n, v) ∈ extracted (Split (path h) "/")
                 (Split (pathClean (URLPath request)) "/") ->
      Parameter_Get (GetParameter request') n = v.
Proof.
  intros Hf Hlast Hlen Hne Hnd Hnames Hvals.
  set (pairs := extracted (Split (path h) "/")
                  (Split (pathClean (URLPath request)) "/")) in *.
  assert (Hs : encode pairs <> EmptyString).
  { intros E. apply encode_empty in E. contradiction. }
  exists (Header_Set request headerName (encode pairs)). split.
  - unfold Mux_ServeHTTP. rewrite Hf.
    rewrite ParseParameter_extracted by assumption. fold pairs.
    destruct (String.eqb_spec (encode pairs) ""); [contradiction | reflexivity].
  - intros n v Hin. rewrite GetParameter_after_Set by exact Hs. simpl.
    rewrite (Load_encode_recovers pairs n v) by assumption. reflexivity.
Qed.

Lemma ServeHTTP_delivers_parameters_witness :
  exists request',
    Mux_ServeHTTP id (mkMux "" (say "404") [])
      (Router_addRoute newRouter "GET" "/hello/:name" (say "hello") []).1
      [] (mkRequest "GET" "/hello/world" ∅)
    = Served (Route_ServeHTTP (mkRoute "/hello/:name" (say "hello") []) [] request') /\
    forall n v,
      (n, v) ∈ extracted (Split "/hello/:name" "/") (Split "/hello/world" "/") ->
      Parameter_Get (GetParameter request') n = v.
Proof.
  apply (ServeHTTP_delivers_parameters id (mkMux "" (say "404") [])
           (Router_addRoute newRouter "GET" "/hello/:name" (say "hello") []).1
           [] (mkRequest "GET" "/hello/world" ∅)
           (mkRoute "/hello/:name" (say "hello") [])).
  - by_evaluation.
  - reflexivity.
  - vm_compute. lia.
  - discriminate.
  - vm_compute. apply NoDup_singleton.
  - vm_compute. repeat constructor.
  - vm_compute. repeat constructor.
Defined.
